(** * ComputeNBody: host-side model of the compute-shader N-body example

    A shallow embedding of [VulkanExamples/ComputeNBody/ComputeNBody.cpp]:
    the particle initializer of [prepareStorageBuffers], the command
    buffers recorded by [prepareStorageBuffers], [buildComputeCommandBuffer]
    and [buildCommandBuffersForMainRendering], the semaphore wiring of
    [prepareGraphicPass] and [draw], and the per-frame order of [render].

    Conventions.  [uint32_t] values are [Z] with the wrap-around written
    out ([U32.wrap]); [float] is IEEE binary32 as [spec_float] with
    precision 24 and maximal exponent 128; a recorded command buffer is the
    list of its commands in recording order; a queue is the list of the
    batches submitted to it. *)

From Stdlib Require Import ZArith List Bool Lia.
From Stdlib Require Import Floats.SpecFloat.
From Stdlib Require Import Reals Lra.
From stdpp Require Import base list.
Import ListNotations.

Local Open Scope Z_scope.

(** ** 32-bit unsigned arithmetic *)

Module U32.

Definition modulus : Z := 2 ^ 32.

Definition wrap (x : Z) : Z := x mod modulus.

Definition mul (a b : Z) : Z := wrap (a * b).

(** Unsigned division never leaves the range, so nothing wraps. *)
Definition div (a b : Z) : Z := a / b.

Definition in_range (x : Z) : Prop := 0 <= x < modulus.

End U32.

(** ** The part of the Vulkan API the example records *)

Module Vk.

(** [VkAccessFlags] bits used by the example; [0] is "no access". *)
Definition VK_ACCESS_NONE : Z := 0.
Definition VK_ACCESS_VERTEX_ATTRIBUTE_READ_BIT : Z := 0x00000004.
Definition VK_ACCESS_SHADER_READ_BIT : Z := 0x00000020.
Definition VK_ACCESS_SHADER_WRITE_BIT : Z := 0x00000040.

(** [VK_QUEUE_FAMILY_IGNORED] is [~0U]. *)
Definition VK_QUEUE_FAMILY_IGNORED : Z := U32.modulus - 1.

Inductive PipelineStage :=
| TOP_OF_PIPE
| VERTEX_INPUT
| COMPUTE_SHADER
| COLOR_ATTACHMENT_OUTPUT
| BOTTOM_OF_PIPE.

Inductive Buffer := StagingBuffer | StorageBuffer.

(** [VkBufferMemoryBarrier], without [sType], [pNext], offset and size. *)
Record BufferMemoryBarrier := {
  srcAccessMask : Z;
  dstAccessMask : Z;
  srcQueueFamilyIndex : Z;
  dstQueueFamilyIndex : Z;
  buffer : Buffer
}.

Inductive Pipeline := PipelineCalculate | PipelineIntegrate | PipelineGraphics.

(** The [vkCmd*] calls of the example, with the arguments that matter. *)
Inductive Cmd :=
| CmdCopyBuffer (src dst : Buffer)
| CmdPipelineBarrier (srcStage dstStage : PipelineStage) (b : BufferMemoryBarrier)
| CmdBindPipeline (p : Pipeline)
| CmdBindDescriptorSets
| CmdDispatch (groupCountX groupCountY groupCountZ : Z)
| CmdBeginRenderPass
| CmdSetViewport
| CmdSetScissor
| CmdBindVertexBuffers (b : Buffer)
| CmdDraw (vertexCount instanceCount : Z)
| CmdDrawUI
| CmdEndRenderPass.

Definition CommandBuffer := list Cmd.

(** A buffer barrier transfers queue-family ownership when its two
    queue-family indices differ. *)
Definition transfersOwnership (b : BufferMemoryBarrier) : bool :=
  negb (srcQueueFamilyIndex b =? dstQueueFamilyIndex b).







Definition dispatches (cb : CommandBuffer) : list Z :=
  flat_map (fun c => match c with CmdDispatch x _ _ => [x] | _ => [] end) cb.

End Vk.

(** ** IEEE binary32, the C++ [float] *)

Module F32.

Definition prec : Z := 24.
Definition emax : Z := 128.

Definition t := spec_float.

Definition add : t -> t -> t := SFadd prec emax.
Definition sub : t -> t -> t := SFsub prec emax.
Definition mul : t -> t -> t := SFmul prec emax.
Definition div : t -> t -> t := SFdiv prec emax.
Definition sqrt : t -> t := SFsqrt prec emax.
Definition ltb : t -> t -> bool := SFltb.
Definition leb : t -> t -> bool := SFleb.
Definition eqb : t -> t -> bool := SFeqb.

(** Conversion of an integer ([(float)i], or an integral literal). *)
Definition of_Z (z : Z) : t := binary_normalize prec emax z 0 false.

(** The literal [num/den] for integers that are themselves binary32
    numbers: one correctly rounded division, which is the value a compiler
    gives the decimal literal. *)
Definition lit (num den : Z) : t := div (of_Z num) (of_Z den).

Definition zero : t := S754_zero false.
Definition one : t := of_Z 1.

End F32.

Declare Scope f32_scope.
Delimit Scope f32_scope with f32.
Infix "+" := F32.add : f32_scope.
Infix "-" := F32.sub : f32_scope.
Infix "*" := F32.mul : f32_scope.
Infix "/" := F32.div : f32_scope.

(** ** The pieces of GLM the initializer uses

    [glm::dot] on [vec3] multiplies componentwise and sums left to right,
    [glm::length] is [sqrt (dot v v)], [glm::inversesqrt x] is
    [1 / sqrt x] and [glm::normalize v] is [v * inversesqrt (dot v v)]. *)

Module Glm.

Record vec3 := Vec3 { x3 : F32.t; y3 : F32.t; z3 : F32.t }.
Record vec4 := Vec4 { x4 : F32.t; y4 : F32.t; z4 : F32.t; w4 : F32.t }.

Definition vec3_add (a b : vec3) : vec3 :=
  Vec3 (x3 a + x3 b)%f32 (y3 a + y3 b)%f32 (z3 a + z3 b)%f32.
Definition vec3_sub (a b : vec3) : vec3 :=
  Vec3 (x3 a - x3 b)%f32 (y3 a - y3 b)%f32 (z3 a - z3 b)%f32.
Definition vec3_scale (a : vec3) (s : F32.t) : vec3 :=
  Vec3 (x3 a * s)%f32 (y3 a * s)%f32 (z3 a * s)%f32.

Definition dot (a b : vec3) : F32.t :=
  (x3 a * x3 b + y3 a * y3 b + z3 a * z3 b)%f32.
Definition length (v : vec3) : F32.t := F32.sqrt (dot v v).
Definition inversesqrt (x : F32.t) : F32.t := (F32.one / F32.sqrt x)%f32.
Definition normalize (v : vec3) : vec3 := vec3_scale v (inversesqrt (dot v v)).

Definition cross (a b : vec3) : vec3 :=
  Vec3 (y3 a * z3 b - y3 b * z3 a)%f32
       (z3 a * x3 b - z3 b * x3 a)%f32
       (x3 a * y3 b - x3 b * y3 a)%f32.

(** [glm::vec4(v, w)] and [glm::vec4(s)]. *)
Definition vec4_of (v : vec3) (w : F32.t) : vec4 := Vec4 (x3 v) (y3 v) (z3 v) w.
Definition vec4_splat (s : F32.t) : vec4 := Vec4 s s s s.
Definition xyz (v : vec4) : vec3 := Vec3 (x4 v) (y4 v) (z4 v).
Definition set_w (v : vec4) (w : F32.t) : vec4 := Vec4 (x4 v) (y4 v) (z4 v) w.
Definition set_y (v : vec3) (y : F32.t) : vec3 := Vec3 (x3 v) y (z3 v).

End Glm.

(** ** The attenuation of lines 187-188 in exact arithmetic

    The same GLM expressions read over the real numbers, to tell what the
    expression computes from what rounding adds to it. *)

Module Exact.
Local Open Scope R_scope.

Definition vec3 : Type := R * R * R.

Definition dot (a b : vec3) : R :=
  let '(ax, ay, az) := a in
  let '(bx, by_, bz) := b in
  ax * bx + ay * by_ + az * bz.
Definition scale (a : vec3) (s : R) : vec3 :=
  let '(ax, ay, az) := a in (ax * s, ay * s, az * s).
Definition length (v : vec3) : R := sqrt (dot v v).
Definition inversesqrt (x : R) : R := 1 / sqrt x.
Definition normalize (v : vec3) : vec3 := scale v (inversesqrt (dot v v)).

(** [2.0f - (len * len)] with [len = glm::length(glm::normalize(offset))]. *)
Definition flattenFactor (offset : vec3) : R :=
  let len := length (normalize offset) in
  2 - len * len.

End Exact.

(** ** The example: [class VulkanExample] *)

Module NBody.
Import Glm.

(** *** Configuration *)

(** [PARTICLES_PER_ATTRACTOR]: [3 * 1024] under [__ANDROID__], else [4 * 1024]. *)
Definition PARTICLES_PER_ATTRACTOR (android : bool) : Z :=
  if android then 3 * 1024 else 4 * 1024.

(** Modelled from the spec: the local workgroup size of the two compute
    shaders [particle_calculate.comp] and [particle_integrate.comp], which
    are not part of the sources; the spec gives "workgroup size 256
    particles per group", the divisor [256] of the two [vkCmdDispatch]
    calls. *)
Definition WORKGROUP_SIZE : Z := 256.

Definition attractors : list vec3 :=
  [ Vec3 (F32.of_Z 5) F32.zero F32.zero;
    Vec3 (F32.of_Z (-5)) F32.zero F32.zero;
    Vec3 F32.zero F32.zero (F32.of_Z 5);
    Vec3 F32.zero F32.zero (F32.of_Z (-5));
    Vec3 F32.zero (F32.of_Z 4) F32.zero;
    Vec3 F32.zero (F32.of_Z (-8)) F32.zero ].

(** [static_cast<uint32_t>(attractors.size())] *)
Definition ATTRACTORS_SIZE (attr : list vec3) : Z :=
  U32.wrap (Z.of_nat (List.length attr)).

Definition numParticlesOf (attr : list vec3) (ppa : Z) : Z :=
  U32.mul (ATTRACTORS_SIZE attr) ppa.

(** *** Random numbers

    [std::default_random_engine] and [std::normal_distribution<float>]
    belong to the C++ library; the initializer only relies on an engine
    being built from a seed and on each call [rndDist(rndEngine)] returning
    a sample together with the advanced engine. *)
Class RandomEngine (G : Type) := {
  seedEngine : Z -> G;
  rndDist : G -> F32.t * G
}.

(** [benchmark.active ? 0 : (unsigned)time(nullptr)] *)
Definition seedOf (benchmarkActive : bool) (time : Z) : Z :=
  if benchmarkActive then 0 else U32.wrap time.

(** *** Particles *)

Record Particle := {
  pos : vec4;  (* xyz = position, w = mass *)
  vel : vec4   (* xyz = velocity, w = gradient texture position *)
}.

Definition zeroParticle : Particle :=
  {| pos := vec4_splat F32.zero; vel := vec4_splat F32.zero |}.

Definition mass (p : Particle) : F32.t := w4 (pos p).
Definition gradientIndex (p : Particle) : F32.t := w4 (vel p).
Definition velocity (p : Particle) : vec3 := xyz (vel p).

(** Bounded [for] loop with a [uint32_t] counter running over [0 .. n-1]. *)
Definition forLoop {S : Type} (n : nat) (body : nat -> S -> S) (s : S) : S :=
  fold_left (fun s i => body i s) (seq 0 n) s.

Section Initializer.
Context {G : Type} `{RandomEngine G}.

(** [glm::vec3(rndDist(rndEngine), rndDist(rndEngine), rndDist(rndEngine))].
    C++ does not fix the order in which the three arguments are evaluated;
    the draws are taken left to right here.  The claims proved of
    [initParticles] are about lengths, centre particles, gradient indices
    and masses, none of which depends on which draw lands in which
    component; [initLoopIn] further down takes the order as a parameter. *)
Definition rndVec3 (g : G) : vec3 * G :=
  let '(a, g) := rndDist g in
  let '(b, g) := rndDist g in
  let '(c, g) := rndDist g in
  (Vec3 a b c, g).

(** The attenuation factor of line 188: [2.0f - (len * len)] with
    [len = glm::length(glm::normalize(position - attractors[i]))]. *)
Definition flattenFactor (position attractor : vec3) : F32.t :=
  let len := length (normalize (vec3_sub position attractor)) in
  (F32.of_Z 2 - len * len)%f32.

(** [(rndDist(rndEngine) * 0.5f + 0.5f) * 75.0f] *)
Definition massOfSample (s : F32.t) : F32.t :=
  ((s * F32.lit 1 2 + F32.lit 1 2) * F32.of_Z 75)%f32.

(** [(float)i*1.0f / ATTRACTORS_SIZE] *)
Definition gradientOf (i : Z) (attrSize : Z) : F32.t :=
  (F32.of_Z i * F32.one / F32.of_Z attrSize)%f32.

(** The [else] branch of the inner loop body (lines 185-196). *)
Definition orbitingParticle (i : Z) (attractor : vec3) (g : G) : Particle * G :=
  let '(r, g) := rndVec3 g in
  let position := vec3_add attractor (vec3_scale r (F32.lit 3 4)) in
  let position :=
    set_y position (y3 position * flattenFactor position attractor)%f32 in
  let angular :=
    vec3_scale (Vec3 (F32.lit 1 2) (F32.lit 3 2) (F32.lit 1 2))
               (if i mod 2 =? 0 then F32.of_Z 1 else F32.of_Z (-1)) in
  let '(vx, g) := rndDist g in
  let '(vy, g) := rndDist g in
  let '(vz, g) := rndDist g in
  let velocity :=
    vec3_add (cross (vec3_sub position attractor) angular)
             (Vec3 vx vy (vz * F32.lit 25 1000)%f32) in
  let '(m, g) := rndDist g in
  ({| pos := vec4_of position (massOfSample m);
      vel := vec4_of velocity F32.zero |}, g).

(** The [if (j==0)] branch (lines 178-182). *)
Definition centerParticle (attractor : vec3) : Particle :=
  {| pos := vec4_of (vec3_scale attractor (F32.lit 3 2)) (F32.of_Z 90000);
     vel := vec4_splat F32.zero |}.

(** One particle: the body of the inner loop without the store. *)
Definition makeParticle (attrSize : Z) (i j : Z) (attractor : vec3) (g : G)
  : Particle * G :=
  let '(p, g) :=
    if j =? 0 then (centerParticle attractor, g)
    else orbitingParticle i attractor g in
  ({| pos := pos p; vel := set_w (vel p) (gradientOf i attrSize) |}, g).

(** Body of the inner loop: [particleBuffer[i*PARTICLES_PER_ATTRACTOR + j]]
    is overwritten.  The index is computed in [uint32_t]; an index outside
    the vector is undefined behaviour in the source and leaves the list
    unchanged here. *)
Definition innerBody (attr : list vec3) (ppa : Z) (i j : nat)
    (st : list Particle * G) : list Particle * G :=
  let '(buf, g) := st in
  match attr !! i with
  | Some a =>
      let '(p, g) := makeParticle (ATTRACTORS_SIZE attr) (Z.of_nat i) (Z.of_nat j) a g in
      (<[ Z.to_nat (U32.wrap (Z.of_nat i * ppa + Z.of_nat j)) := p ]> buf, g)
  | None => (buf, g)
  end.

(** Lines 163-202: the vector of [numParticles] value-initialized
    particles, filled group by group. *)
Definition initParticles (attr : list vec3) (ppa : Z) (seed : Z) : list Particle :=
  let n := Z.to_nat (ATTRACTORS_SIZE attr) in
  fst (forLoop n
         (fun i => forLoop (Z.to_nat ppa) (innerBody attr ppa i))
         (replicate (Z.to_nat (numParticlesOf attr ppa)) zeroParticle,
          seedEngine seed)).

(** The particle data [prepareStorageBuffers] uploads: the engine is seeded
    with [benchmark.active ? 0 : (unsigned)time(nullptr)] (line 168). *)
Definition prepareStorageBuffers (attr : list vec3) (ppa : Z)
    (benchmarkActive : bool) (time : Z) : list Particle :=
  initParticles attr ppa (seedOf benchmarkActive time).

End Initializer.

(** *** Recorded command buffers *)

Section CommandBuffers.
Import Vk.

(** [graphics.queueFamilyIndex] and [compute.queueFamilyIndex]. *)
Variables (qfGraphics qfCompute : Z).

Definition familiesDiffer : bool := negb (qfGraphics =? qfCompute).

Definition storageBarrier (srcAccess dstAccess srcFamily dstFamily : Z)
  : BufferMemoryBarrier :=
  {| srcAccessMask := srcAccess; dstAccessMask := dstAccess;
     srcQueueFamilyIndex := srcFamily; dstQueueFamilyIndex := dstFamily;
     buffer := StorageBuffer |}.

(** The release barrier that ends the upload (lines 228-235). *)
Definition uploadRelease : Cmd :=
  CmdPipelineBarrier VERTEX_INPUT BOTTOM_OF_PIPE
    (storageBarrier VK_ACCESS_VERTEX_ATTRIBUTE_READ_BIT VK_ACCESS_NONE
                    qfGraphics qfCompute).

(** [copyCmd] of [prepareStorageBuffers] (lines 221-236). *)
Definition uploadCommandBuffer : CommandBuffer :=
  [CmdCopyBuffer StagingBuffer StorageBuffer]
  ++ (if familiesDiffer then [uploadRelease] else []).

(** The acquire and release barriers of the compute command buffer. *)
Definition computeAcquire : Cmd :=
  CmdPipelineBarrier TOP_OF_PIPE COMPUTE_SHADER
    (storageBarrier VK_ACCESS_NONE VK_ACCESS_SHADER_WRITE_BIT qfGraphics qfCompute).

Definition computeRelease : Cmd :=
  CmdPipelineBarrier COMPUTE_SHADER BOTTOM_OF_PIPE
    (storageBarrier VK_ACCESS_SHADER_WRITE_BIT VK_ACCESS_NONE qfCompute qfGraphics).

(** The barrier between the two passes; both family indices are
    [VK_QUEUE_FAMILY_IGNORED]. *)
Definition secondComputePassBufferBarrier : Cmd :=
  CmdPipelineBarrier COMPUTE_SHADER COMPUTE_SHADER
    (storageBarrier VK_ACCESS_SHADER_WRITE_BIT VK_ACCESS_SHADER_READ_BIT
                    VK_QUEUE_FAMILY_IGNORED VK_QUEUE_FAMILY_IGNORED).

(** [buildComputeCommandBuffer] (lines 451-508). *)
Definition buildComputeCommandBuffer (numParticles : Z) : CommandBuffer :=
  (if familiesDiffer then [computeAcquire] else [])
  ++ [ CmdBindPipeline PipelineCalculate;
       CmdBindDescriptorSets;
       CmdDispatch (U32.div numParticles 256) 1 1;
       secondComputePassBufferBarrier;
       CmdBindPipeline PipelineIntegrate;
       CmdDispatch (U32.div numParticles 256) 1 1 ]
  ++ (if familiesDiffer then [computeRelease] else []).

Definition graphicsAcquire : Cmd :=
  CmdPipelineBarrier TOP_OF_PIPE VERTEX_INPUT
    (storageBarrier VK_ACCESS_NONE VK_ACCESS_VERTEX_ATTRIBUTE_READ_BIT
                    qfCompute qfGraphics).

Definition graphicsRelease : Cmd :=
  CmdPipelineBarrier VERTEX_INPUT BOTTOM_OF_PIPE
    (storageBarrier VK_ACCESS_VERTEX_ATTRIBUTE_READ_BIT VK_ACCESS_NONE
                    qfGraphics qfCompute).

(** One iteration of the loop of [buildCommandBuffersForMainRendering]
    (lines 370-423); debug labels carry no command. *)
Definition drawCommandBuffer (numParticles : Z) : CommandBuffer :=
  (if familiesDiffer then [graphicsAcquire] else [])
  ++ [ CmdBeginRenderPass;
       CmdSetViewport;
       CmdSetScissor;
       CmdBindPipeline PipelineGraphics;
       CmdBindDescriptorSets;
       CmdBindVertexBuffers StorageBuffer;
       CmdDraw numParticles 1;
       CmdDrawUI;
       CmdEndRenderPass ]
  ++ (if familiesDiffer then [graphicsRelease] else []).

(** [buildCommandBuffersForMainRendering]: one command buffer per
    swapchain image, [drawCmdBuffers.size()] of them. *)
Definition buildCommandBuffersForMainRendering (numParticles : Z) (count : nat)
  : list CommandBuffer :=
  map (fun _ => drawCommandBuffer numParticles) (seq 0 count).


End CommandBuffers.

(** Global invocation indices of a dispatch of [groups] workgroups of
    [WORKGROUP_SIZE] threads: [gl_GlobalInvocationID.x] is
    [group * 256 + local] for each workgroup and each local index. *)
Definition globalInvocations (groups : Z) : list Z :=
  flat_map (fun g => map (fun l => Z.of_nat g * WORKGROUP_SIZE + Z.of_nat l)
                         (seq 0 (Z.to_nat WORKGROUP_SIZE)))
           (seq 0 (Z.to_nat groups)).

(** [ceil(n / d)] on naturals. *)
Definition ceilDiv (n d : Z) : Z := (n + d - 1) / d.

(** *** Semaphores and queue submissions *)

Inductive Semaphore :=
| GraphicsSemaphore   (* graphics.semaphore *)
| ComputeSemaphore    (* compute.semaphore *)
| PresentComplete     (* semaphores.presentComplete *)
| RenderComplete.     (* semaphores.renderComplete *)

Inductive Queue := GraphicQueue | ComputeQueue.

Inductive CommandBufferId :=
| ComputeCommands   (* compute.commandBuffer: writes the storage buffer *)
| DrawCommands.     (* drawCmdBuffers[currentCmdBufferIndex]: reads it *)

(** [VkSubmitInfo]: wait semaphores with the stages that wait for them,
    command buffers, signal semaphores. *)
Record SubmitInfo := {
  waitSemaphores : list Semaphore;
  waitDstStageMask : list Vk.PipelineStage;
  commandBuffers : list CommandBufferId;
  signalSemaphores : list Semaphore
}.

(** The batch of [prepareGraphicPass] (lines 441-445): no wait, no command
    buffer, signals [graphics.semaphore]. *)
Definition primingSubmitInfo : SubmitInfo :=
  {| waitSemaphores := [];
     waitDstStageMask := [];
     commandBuffers := [];
     signalSemaphores := [GraphicsSemaphore] |}.

(** [computeSubmitInfo] of [draw] (lines 609-616). *)
Definition computeSubmitInfo : SubmitInfo :=
  {| waitSemaphores := [GraphicsSemaphore];
     waitDstStageMask := [Vk.COMPUTE_SHADER];
     commandBuffers := [ComputeCommands];
     signalSemaphores := [ComputeSemaphore] |}.

(** [submitInfo] of [draw] (lines 621-632). *)
Definition graphicsSubmitInfo : SubmitInfo :=
  {| waitSemaphores := [ComputeSemaphore; PresentComplete];
     waitDstStageMask := [Vk.VERTEX_INPUT; Vk.COLOR_ATTACHMENT_OUTPUT];
     commandBuffers := [DrawCommands];
     signalSemaphores := [GraphicsSemaphore; RenderComplete] |}.

(** *** The host thread *)

Inductive HostOp :=
| UpdateComputeUniformBuffers
| UpdateGraphicsUniformBuffers
| QueueSubmit (q : Queue) (s : SubmitInfo)
| PrepareFrame
| SubmitFrame.

(** [draw] (lines 603-636).  [PrepareFrame] and [SubmitFrame] stand for
    the calls of [VulkanExampleBase::prepareFrame] and
    [VulkanExampleBase::submitFrame]; the base class is not part of the
    sources, and by the spec the first acquires the next presentable image
    and the second presents. *)
Definition draw : list HostOp :=
  [ QueueSubmit ComputeQueue computeSubmitInfo;
    PrepareFrame;
    QueueSubmit GraphicQueue graphicsSubmitInfo;
    SubmitFrame ].

(** [render] (lines 652-661). *)
Definition render (prepared : bool) : list HostOp :=
  if prepared then
    [UpdateComputeUniformBuffers; UpdateGraphicsUniformBuffers] ++ draw
  else [].

(** *** Execution of the submitted batches

    A batch starts, that is passes its semaphore wait, once every semaphore
    it waits on is signaled, which unsignals them; its commands that touch
    the storage buffer run after that point, and when the batch completes
    it signals its signal semaphores.  A queue starts its batches in
    submission order; batches that have started complete in any order.
    The presentation engine is left unconstrained: it signals
    [PresentComplete] and consumes [RenderComplete] whenever it likes. *)

Record SemState := {
  sGraphics : bool;
  sCompute : bool;
  sPresentComplete : bool;
  sRenderComplete : bool
}.

Definition isSignaled (st : SemState) (s : Semaphore) : bool :=
  match s with
  | GraphicsSemaphore => sGraphics st
  | ComputeSemaphore => sCompute st
  | PresentComplete => sPresentComplete st
  | RenderComplete => sRenderComplete st
  end.

Definition setSemaphore (b : bool) (st : SemState) (s : Semaphore) : SemState :=
  match s with
  | GraphicsSemaphore =>
      {| sGraphics := b; sCompute := sCompute st;
         sPresentComplete := sPresentComplete st;
         sRenderComplete := sRenderComplete st |}
  | ComputeSemaphore =>
      {| sGraphics := sGraphics st; sCompute := b;
         sPresentComplete := sPresentComplete st;
         sRenderComplete := sRenderComplete st |}
  | PresentComplete =>
      {| sGraphics := sGraphics st; sCompute := sCompute st;
         sPresentComplete := b;
         sRenderComplete := sRenderComplete st |}
  | RenderComplete =>
      {| sGraphics := sGraphics st; sCompute := sCompute st;
         sPresentComplete := sPresentComplete st;
         sRenderComplete := b |}
  end.

Definition signalAll (l : list Semaphore) (st : SemState) : SemState :=
  fold_left (setSemaphore true) l st.
Definition unsignalAll (l : list Semaphore) (st : SemState) : SemState :=
  fold_left (setSemaphore false) l st.

Inductive Event :=
| EvBegin (s : SubmitInfo)
| EvEnd (s : SubmitInfo).

Record Machine := {
  sems : SemState;
  pendingGraphic : list SubmitInfo;   (* submitted to graphicQueue, not started *)
  pendingCompute : list SubmitInfo;   (* submitted to compute.queue, not started *)
  running : list SubmitInfo;          (* started, not completed *)
  trace : list Event;                 (* oldest event first *)
  hostLog : list HostOp;              (* host operations done, oldest first *)
  hostRest : list HostOp              (* what is left of the current [render] *)
}.

(** Freshly created semaphores are unsignaled. *)
Definition bootMachine : Machine :=
  {| sems := {| sGraphics := false; sCompute := false;
                sPresentComplete := false; sRenderComplete := false |};
     pendingGraphic := []; pendingCompute := [];
     running := []; trace := []; hostLog := []; hostRest := [] |}.

(** [prepareGraphicPass], lines 441-446: [vkQueueSubmit] of the priming
    batch followed by [vkQueueWaitIdle]; the batch waits on nothing, so
    when the host resumes it has completed and signaled. *)
Definition prepareGraphicPass (m : Machine) : Machine :=
  {| sems := signalAll (signalSemaphores primingSubmitInfo) (sems m);
     pendingGraphic := pendingGraphic m; pendingCompute := pendingCompute m;
     running := running m; trace := trace m; hostLog := hostLog m; hostRest := hostRest m |}.

(** The machine when [prepareForRendering] returns. *)
Definition preparedMachine : Machine := prepareGraphicPass bootMachine.

Section Execution.

(** Whether [compute.queue] is the very queue [graphicQueue] (possible
    when both roles resolve to one queue family). *)
Variable sharedQueue : bool.

Definition enqueue (q : Queue) (s : SubmitInfo) (m : Machine) : Machine :=
  match q, sharedQueue with
  | ComputeQueue, false =>
      {| sems := sems m; pendingGraphic := pendingGraphic m;
         pendingCompute := pendingCompute m ++ [s];
         running := running m; trace := trace m; hostLog := hostLog m; hostRest := hostRest m |}
  | _, _ =>
      {| sems := sems m; pendingGraphic := pendingGraphic m ++ [s];
         pendingCompute := pendingCompute m;
         running := running m; trace := trace m; hostLog := hostLog m; hostRest := hostRest m |}
  end.

Definition hostOp (op : HostOp) (m : Machine) : Machine :=
  match op with
  | QueueSubmit q s => enqueue q s m
  | _ => m
  end.

Definition withHostRest (l : list HostOp) (m : Machine) : Machine :=
  {| sems := sems m; pendingGraphic := pendingGraphic m;
     pendingCompute := pendingCompute m;
     running := running m; trace := trace m; hostLog := hostLog m; hostRest := l |}.

Definition logHostOp (op : HostOp) (m : Machine) : Machine :=
  {| sems := sems m; pendingGraphic := pendingGraphic m;
     pendingCompute := pendingCompute m;
     running := running m; trace := trace m;
     hostLog := hostLog m ++ [op]; hostRest := hostRest m |}.

Definition startBatch (s : SubmitInfo) (restG restC : list SubmitInfo)
    (m : Machine) : option Machine :=
  if forallb (isSignaled (sems m)) (waitSemaphores s) then
    Some {| sems := unsignalAll (waitSemaphores s) (sems m);
            pendingGraphic := restG; pendingCompute := restC;
            running := running m ++ [s];
            trace := trace m ++ [EvBegin s];
            hostLog := hostLog m;
            hostRest := hostRest m |}
  else None.

Inductive Action :=
| Host                 (* the host thread runs its next operation *)
| Begin (q : Queue)    (* a queue starts its oldest pending batch *)
| Finish (k : nat)     (* the [k]-th running batch completes *)
| ImageAvailable       (* the presentation engine signals [PresentComplete] *)
| Presented.           (* the presentation engine consumes [RenderComplete] *)

Definition step (m : Machine) (a : Action) : option Machine :=
  match a with
  | Host =>
      match hostRest m with
      | [] => Some (withHostRest (render true) m)
      | op :: rest => Some (hostOp op (logHostOp op (withHostRest rest m)))
      end
  | Begin GraphicQueue =>
      match pendingGraphic m with
      | s :: rest => startBatch s rest (pendingCompute m) m
      | [] => None
      end
  | Begin ComputeQueue =>
      match pendingCompute m with
      | s :: rest => startBatch s (pendingGraphic m) rest m
      | [] => None
      end
  | Finish k =>
      match running m !! k with
      | Some s =>
          Some {| sems := signalAll (signalSemaphores s) (sems m);
                  pendingGraphic := pendingGraphic m;
                  pendingCompute := pendingCompute m;
                  running := delete k (running m);
                  trace := trace m ++ [EvEnd s];
                  hostLog := hostLog m;
                  hostRest := hostRest m |}
      | None => None
      end
  | ImageAvailable =>
      Some {| sems := setSemaphore true (sems m) PresentComplete;
              pendingGraphic := pendingGraphic m;
              pendingCompute := pendingCompute m;
              running := running m; trace := trace m; hostLog := hostLog m; hostRest := hostRest m |}
  | Presented =>
      if sRenderComplete (sems m) then
        Some {| sems := setSemaphore false (sems m) RenderComplete;
                pendingGraphic := pendingGraphic m;
                pendingCompute := pendingCompute m;
                running := running m; trace := trace m; hostLog := hostLog m; hostRest := hostRest m |}
      else None
  end.

Fixpoint run (acts : list Action) (m : Machine) : option Machine :=
  match acts with
  | [] => Some m
  | a :: rest =>
      match step m a with
      | Some m' => run rest m'
      | None => None
      end
  end.

End Execution.

(** *** Access windows of the shared particle buffer *)

Inductive Window := WriteOpen | WriteClose | ReadOpen | ReadClose.

Definition touchesBuffer (s : SubmitInfo) : bool :=
  match commandBuffers s with [] => false | _ => true end.

Definition windowsOf (e : Event) : list Window :=
  match e with
  | EvBegin s =>
      map (fun c => match c with ComputeCommands => WriteOpen | DrawCommands => ReadOpen end)
          (commandBuffers s)
  | EvEnd s =>
      map (fun c => match c with ComputeCommands => WriteClose | DrawCommands => ReadClose end)
          (commandBuffers s)
  end.

Definition bufferWindows (tr : list Event) : list Window := flat_map windowsOf tr.

(** Where the cycle write-open, write-close, read-open, read-close stands. *)
Inductive Phase := WriterNext | Writing | ReaderNext | Reading.

Definition advance (p : Phase) (w : Window) : option Phase :=
  match p, w with
  | WriterNext, WriteOpen => Some Writing
  | Writing, WriteClose => Some ReaderNext
  | ReaderNext, ReadOpen => Some Reading
  | Reading, ReadClose => Some WriterNext
  | _, _ => None
  end.

Fixpoint phaseAfter (p : Phase) (ws : list Window) : option Phase :=
  match ws with
  | [] => Some p
  | w :: rest =>
      match advance p w with
      | Some p' => phaseAfter p' rest
      | None => None
      end
  end.

(** The windows alternate strictly, starting with a write window. *)
Definition strictlyAlternates (ws : list Window) : bool :=
  match phaseAfter WriterNext ws with Some _ => true | None => false end.

(** *** Invariants of the execution *)

(** The two batches [draw] submits. *)
Definition frameBatch (s : SubmitInfo) : Prop :=
  s = computeSubmitInfo \/ s = graphicsSubmitInfo.

Definition frameHostOp (op : HostOp) : Prop :=
  match op with
  | QueueSubmit _ s => frameBatch s
  | _ => True
  end.

(** What each phase of the cycle means for the two semaphores of the
    example and for the batches that have started. *)
Definition phaseHolds (p : Phase) (m : Machine) : Prop :=
  match p with
  | WriterNext =>
      sGraphics (sems m) = true /\ sCompute (sems m) = false /\ running m = []
  | Writing =>
      sGraphics (sems m) = false /\ sCompute (sems m) = false
      /\ running m = [computeSubmitInfo]
  | ReaderNext =>
      sGraphics (sems m) = false /\ sCompute (sems m) = true /\ running m = []
  | Reading =>
      sGraphics (sems m) = false /\ sCompute (sems m) = false
      /\ running m = [graphicsSubmitInfo]
  end.

Record SyncInvariant (m : Machine) : Prop := {
  inv_pendingGraphic : List.Forall frameBatch (pendingGraphic m);
  inv_pendingCompute : List.Forall frameBatch (pendingCompute m);
  inv_hostRest : List.Forall frameHostOp (hostRest m);
  inv_phase : exists p, phaseAfter WriterNext (bufferWindows (trace m)) = Some p
                        /\ phaseHolds p m
}.

(** The host has gone through whole [render] calls and a part of one. *)
Definition HostInvariant (m : Machine) : Prop :=
  exists k : nat, hostLog m ++ hostRest m = concat (replicate k (render true)).

(** *** Invariant of the initializer loops

    When the loops stand at group [i], particle [j], the vector has its
    full length and every slot written so far holds a particle that
    satisfies [Q] for its group and its place in the group. *)
Definition Filled (Q : nat -> nat -> Particle -> Prop) (total perGroup : nat)
    (i j : nat) (buf : list Particle) : Prop :=
  List.length buf = total /\
  forall i' j' : nat,
    (j' < perGroup)%nat ->
    (i' < i)%nat \/ (i' = i /\ (j' < j)%nat) ->
    exists p, buf !! (i' * perGroup + j')%nat = Some p /\ Q i' j' p.

(** What the loop body guarantees of the particle it stores. *)
Definition particleShape (n : Z) (i j : nat) (p : Particle) : Prop :=
  gradientIndex p = gradientOf (Z.of_nat i) n /\
  (j = 0%nat ->
     mass p = F32.of_Z 90000 /\
     velocity p = Vec3 F32.zero F32.zero F32.zero) /\
  (j <> 0%nat -> exists s, mass p = massOfSample s).

(** *** Engines and schedules for concrete runs *)

(** An engine whose every sample is [x]. *)
Definition constEngine (x : F32.t) : RandomEngine unit :=
  {| seedEngine := fun _ => tt; rndDist := fun g => (x, g) |}.

(** An engine that replays a list of samples, then zeros. *)
Definition replayEngine (samples : list F32.t) : RandomEngine (list F32.t) :=
  {| seedEngine := fun _ => samples;
     rndDist := fun g => (List.hd F32.zero g, List.tl g) |}.

(** One frame on two separate queues, followed by the start of the next
    frame's compute batch. *)
Definition oneFrameSchedule : list Action :=
  [ Host; Host; Host; Host;       (* render: both uniform updates, compute submit *)
    Begin ComputeQueue;
    Host; ImageAvailable; Host;   (* prepareFrame, graphics submit *)
    Finish 0%nat;
    Begin GraphicQueue;
    Host;                         (* submitFrame *)
    Finish 0%nat;
    Presented;
    Host; Host; Host; Host;       (* the next render *)
    Begin ComputeQueue ].

(** *** The initializer together with its engine *)

Section InitializerState.
Context {G : Type} `{RandomEngine G}.

(** The two loops of lines 171-202 with the engine they leave behind;
    [initParticles] is the first component. *)
Definition initLoop (attr : list vec3) (ppa : Z) (seed : Z) : list Particle * G :=
  forLoop (Z.to_nat (ATTRACTORS_SIZE attr))
    (fun i => forLoop (Z.to_nat ppa) (innerBody attr ppa i))
    (replicate (Z.to_nat (numParticlesOf attr ppa)) zeroParticle,
     seedEngine seed).

(** The engine after [k] more calls of [rndDist(rndEngine)]. *)
Definition advanceEngine (k : nat) (g : G) : G :=
  Nat.iter k (fun g => snd (rndDist g)) g.

(** Samples drawn before particle [j] of group [i] is made, in groups of
    [perGroup] particles: seven for every earlier particle that is not the
    first of its group. *)
Definition drawsBefore (perGroup i j : nat) : nat :=
  (7 * (i * (perGroup - 1) + (j - 1)))%nat.

(** Where the loops stand at group [i], particle [j], when started with
    the engine [g0]: the vector has its full length, the engine has made
    [drawsBefore] draws, and every slot written so far holds the particle
    made from the engine as it stood when the slot's turn came. *)
Definition FilledFrom (attr : list vec3) (g0 : G) (total perGroup : nat)
    (i j : nat) (st : list Particle * G) : Prop :=
  List.length (fst st) = total /\
  snd st = advanceEngine (drawsBefore perGroup i j) g0 /\
  forall (i' j' : nat) (a : vec3),
    (j' < perGroup)%nat ->
    (i' < i)%nat \/ (i' = i /\ (j' < j)%nat) ->
    attr !! i' = Some a ->
    fst st !! (i' * perGroup + j')%nat
    = Some (fst (makeParticle (ATTRACTORS_SIZE attr) (Z.of_nat i') (Z.of_nat j') a
                   (advanceEngine (drawsBefore perGroup i' j') g0))).

End InitializerState.

(** *** The shared-memory tile of the first compute pass *)

(** [sizeof(glm::vec4)]: four [float]s. *)
Definition SIZEOF_VEC4 : Z := 16.

(** Line 558: [std::min((uint32_t)1024,
    (uint32_t)(limits.maxComputeSharedMemorySize / sizeof(glm::vec4)))]. *)
Definition sharedDataSize (maxComputeSharedMemorySize : Z) : Z :=
  Z.min (U32.wrap 1024) (U32.wrap (maxComputeSharedMemorySize / SIZEOF_VEC4)).

(** *** Queue-family ownership of the storage buffer

    A checker for the stream of commands the queues execute: the buffer is
    owned by one queue family, a release barrier recorded for the owning
    family starts a transfer, only the matching acquire barrier recorded
    for the destination family ends it, and commands that read or write
    the buffer must be executed by the owning family. *)

Inductive Ownership :=
| OwnedBy (family : Z)
| Released (src dst : Z).

(** Commands that read or write the storage buffer. *)
Definition accessesStorage (c : Vk.Cmd) : bool :=
  match c with
  | Vk.CmdCopyBuffer _ Vk.StorageBuffer => true
  | Vk.CmdDispatch _ _ _ => true
  | Vk.CmdDraw _ _ => true
  | _ => false
  end.

Definition ownedBy (family : Z) (o : Ownership) : bool :=
  match o with
  | OwnedBy f => f =? family
  | Released _ _ => false
  end.

(** One command executed by a queue of [family]; [None] is a violation. *)
Definition ownerStep (family : Z) (o : Ownership) (c : Vk.Cmd) : option Ownership :=
  match c with
  | Vk.CmdPipelineBarrier _ _ b =>
      if Vk.transfersOwnership b then
        match o with
        | OwnedBy f =>
            if (f =? family) && (Vk.srcQueueFamilyIndex b =? family)
            then Some (Released (Vk.srcQueueFamilyIndex b) (Vk.dstQueueFamilyIndex b))
            else None
        | Released s d =>
            if (d =? family) && (Vk.srcQueueFamilyIndex b =? s)
               && (Vk.dstQueueFamilyIndex b =? d)
            then Some (OwnedBy d)
            else None
        end
      else if ownedBy family o then Some o else None
  | _ =>
      if accessesStorage c then (if ownedBy family o then Some o else None)
      else Some o
  end.

Fixpoint ownerRun (family : Z) (o : Ownership) (cb : Vk.CommandBuffer)
  : option Ownership :=
  match cb with
  | [] => Some o
  | c :: rest =>
      match ownerStep family o c with
      | Some o' => ownerRun family o' rest
      | None => None
      end
  end.

(** Command buffers in execution order, each with the family of the queue
    that executes it. *)
Fixpoint ownerRunAll (o : Ownership) (stream : list (Z * Vk.CommandBuffer))
  : option Ownership :=
  match stream with
  | [] => Some o
  | (family, cb) :: rest =>
      match ownerRun family o cb with
      | Some o' => ownerRunAll o' rest
      | None => None
      end
  end.

Section Stream.
Variables (qfGraphics qfCompute numParticles : Z).

(** The commands behind a submitted command buffer, with the family of
    the queue it is submitted to: [compute.queue] belongs to
    [compute.queueFamilyIndex], [graphicQueue] to
    [graphics.queueFamilyIndex]. *)
Definition commandsOf (id : CommandBufferId) : Z * Vk.CommandBuffer :=
  match id with
  | ComputeCommands =>
      (qfCompute, buildComputeCommandBuffer qfGraphics qfCompute numParticles)
  | DrawCommands =>
      (qfGraphics, drawCommandBuffer qfGraphics qfCompute numParticles)
  end.

(** The command buffers of the batches that have started, in the order
    they started. *)
Definition startedStream (tr : list Event) : list (Z * Vk.CommandBuffer) :=
  flat_map (fun e => match e with
                     | EvBegin s => map commandsOf (commandBuffers s)
                     | EvEnd _ => []
                     end) tr.

(** Everything executed on the storage buffer: the upload of
    [prepareStorageBuffers], flushed on [graphicQueue], then the frames. *)
Definition executedStream (tr : list Event) : list (Z * Vk.CommandBuffer) :=
  (qfGraphics, uploadCommandBuffer qfGraphics qfCompute) :: startedStream tr.

(** Who holds the buffer in each phase of the cycle. *)
Definition ownershipAt (p : Phase) : Ownership :=
  match p with
  | WriterNext | Reading =>
      if familiesDiffer qfGraphics qfCompute
      then Released qfGraphics qfCompute else OwnedBy qfGraphics
  | Writing | ReaderNext =>
      if familiesDiffer qfGraphics qfCompute
      then Released qfCompute qfGraphics else OwnedBy qfGraphics
  end.

End Stream.

Definition frameEvent (e : Event) : Prop :=
  match e with
  | EvBegin s | EvEnd s => frameBatch s
  end.

(** *** Render-pass scope of recorded commands

    [Some inside] after a command that is allowed where it stands:
    a render pass is begun outside and ended inside one, draws are
    recorded inside, and copies, dispatches and buffer barriers outside. *)
Definition scopeStep (inside : bool) (c : Vk.Cmd) : option bool :=
  match c with
  | Vk.CmdBeginRenderPass => if inside then None else Some true
  | Vk.CmdEndRenderPass => if inside then Some false else None
  | Vk.CmdDraw _ _ | Vk.CmdDrawUI => if inside then Some true else None
  | Vk.CmdCopyBuffer _ _ | Vk.CmdDispatch _ _ _ | Vk.CmdPipelineBarrier _ _ _ =>
      if inside then None else Some false
  | _ => Some inside
  end.

Fixpoint scopeRun (inside : bool) (cb : Vk.CommandBuffer) : option bool :=
  match cb with
  | [] => Some inside
  | c :: rest =>
      match scopeStep inside c with
      | Some inside' => scopeRun inside' rest
      | None => None
      end
  end.

(** The command buffer is well scoped and ends outside any render pass. *)
Definition wellScoped (cb : Vk.CommandBuffer) : bool :=
  match scopeRun false cb with
  | Some false => true
  | _ => false
  end.

Definition draws (cb : Vk.CommandBuffer) : list (Z * Z) :=
  flat_map (fun c => match c with Vk.CmdDraw v i => [(v, i)] | _ => [] end) cb.

(** Commands that begin, end or belong inside a render pass. *)
Definition isRenderPassCommand (c : Vk.Cmd) : bool :=
  match c with
  | Vk.CmdBeginRenderPass | Vk.CmdEndRenderPass
  | Vk.CmdDraw _ _ | Vk.CmdDrawUI => true
  | _ => false
  end.

Definition renderPassCommands (cb : Vk.CommandBuffer) : list Vk.Cmd :=
  List.filter isRenderPassCommand cb.

Definition renderPassesBegun (cb : Vk.CommandBuffer) : nat :=
  List.length (List.filter (fun c => match c with
                                     | Vk.CmdBeginRenderPass => true
                                     | _ => false
                                     end) cb).

Definition renderPassesEnded (cb : Vk.CommandBuffer) : nat :=
  List.length (List.filter (fun c => match c with
                                     | Vk.CmdEndRenderPass => true
                                     | _ => false
                                     end) cb).

(** *** Bindings and hazards inside the compute command buffer *)

Record ComputeRecording := {
  boundPipeline : option Vk.Pipeline;
  descriptorsBound : bool;
  unsyncedWrite : bool;                  (* a dispatch wrote, no barrier since *)
  dispatched : list (Vk.Pipeline * Z)     (* pass and workgroup count, in order *)
}.

Definition isComputePipeline (p : Vk.Pipeline) : bool :=
  match p with
  | Vk.PipelineCalculate | Vk.PipelineIntegrate => true
  | Vk.PipelineGraphics => false
  end.

Definition isComputeStage (s : Vk.PipelineStage) : bool :=
  match s with Vk.COMPUTE_SHADER => true | _ => false end.

(** A barrier from compute-shader writes to compute-shader reads. *)
Definition makesWritesVisible (src dst : Vk.PipelineStage)
    (b : Vk.BufferMemoryBarrier) : bool :=
  isComputeStage src && isComputeStage dst
  && negb (Z.land (Vk.srcAccessMask b) Vk.VK_ACCESS_SHADER_WRITE_BIT =? 0)
  && negb (Z.land (Vk.dstAccessMask b) Vk.VK_ACCESS_SHADER_READ_BIT =? 0).

(** A dispatch needs a bound compute pipeline and bound descriptors, and
    must not follow another dispatch's writes without a barrier. *)
Definition computeStep (r : ComputeRecording) (c : Vk.Cmd) : option ComputeRecording :=
  match c with
  | Vk.CmdBindPipeline p =>
      Some {| boundPipeline := Some p; descriptorsBound := descriptorsBound r;
              unsyncedWrite := unsyncedWrite r; dispatched := dispatched r |}
  | Vk.CmdBindDescriptorSets =>
      Some {| boundPipeline := boundPipeline r; descriptorsBound := true;
              unsyncedWrite := unsyncedWrite r; dispatched := dispatched r |}
  | Vk.CmdDispatch x _ _ =>
      match boundPipeline r with
      | Some p =>
          if isComputePipeline p && descriptorsBound r && negb (unsyncedWrite r)
          then Some {| boundPipeline := boundPipeline r;
                       descriptorsBound := descriptorsBound r;
                       unsyncedWrite := true;
                       dispatched := dispatched r ++ [(p, x)] |}
          else None
      | None => None
      end
  | Vk.CmdPipelineBarrier src dst b =>
      Some {| boundPipeline := boundPipeline r;
              descriptorsBound := descriptorsBound r;
              unsyncedWrite :=
                if makesWritesVisible src dst b then false else unsyncedWrite r;
              dispatched := dispatched r |}
  | _ => Some r
  end.

Fixpoint computeRun (r : ComputeRecording) (cb : Vk.CommandBuffer)
  : option ComputeRecording :=
  match cb with
  | [] => Some r
  | c :: rest =>
      match computeStep r c with
      | Some r' => computeRun r' rest
      | None => None
      end
  end.

(** A command buffer after [vkBeginCommandBuffer]: nothing bound. *)
Definition freshRecording : ComputeRecording :=
  {| boundPipeline := None; descriptorsBound := false;
     unsyncedWrite := false; dispatched := [] |}.

(** *** The compute uniform block *)

(** [struct ComputeUniformData] (lines 80-88) with its default member
    initializers; [particleCount] is an [int32_t]. *)
Record ComputeUniformData := {
  deltaT : F32.t;
  particleCount : Z;
  gravity : F32.t;
  power : F32.t;
  soften : F32.t
}.

Definition defaultUniformData : ComputeUniformData :=
  {| deltaT := F32.zero;
     particleCount := 0;
     gravity := F32.lit 2 1000;
     power := F32.lit 3 4;
     soften := F32.lit 5 100 |}.

(** Conversion of a [uint32_t] to [int32_t]: the value modulo [2^32] read
    as two's complement. *)
Definition toInt32 (x : Z) : Z :=
  let y := U32.wrap x in
  if y <? 2 ^ 31 then y else y - U32.modulus.

(** [compute.uniformData] on the host and what
    [compute.uniformBuffer.mappedData] points to; the mapped memory holds
    nothing known until the first [memcpy]. *)
Record ComputeUniforms := {
  uniformData : ComputeUniformData;
  mappedData : option ComputeUniformData
}.

Definition freshUniforms : ComputeUniforms :=
  {| uniformData := defaultUniformData; mappedData := None |}.

(** Line 204: [compute.uniformData.particleCount = numParticles]. *)
Definition setParticleCount (numParticles : Z) (u : ComputeUniforms) : ComputeUniforms :=
  {| uniformData :=
       {| deltaT := deltaT (uniformData u);
          particleCount := toInt32 numParticles;
          gravity := gravity (uniformData u);
          power := power (uniformData u);
          soften := soften (uniformData u) |};
     mappedData := mappedData u |}.

(** [updateComputeUniformBuffers] (lines 638-642). *)
Definition updateComputeUniformBuffers (paused : bool) (frameTimer : F32.t)
    (u : ComputeUniforms) : ComputeUniforms :=
  let data :=
    {| deltaT := if paused then F32.zero else (frameTimer * F32.lit 5 100)%f32;
       particleCount := particleCount (uniformData u);
       gravity := gravity (uniformData u);
       power := power (uniformData u);
       soften := soften (uniformData u) |} in
  {| uniformData := data; mappedData := Some data |}.

(** The updates of a run of frames, each with its [paused] flag and its
    [frameTimer]. *)
Definition updateFrames (frames : list (bool * F32.t)) (u : ComputeUniforms)
  : ComputeUniforms :=
  fold_left (fun u f => updateComputeUniformBuffers (fst f) (snd f) u) frames u.

(** *** A schedule that completes frames *)

(** One whole frame: [render] up to the compute submission, the compute
    batch from start to completion, the image acquisition and the graphics
    submission, the graphics batch from start to completion, the
    presentation.  With a shared queue the compute batch starts from
    [graphicQueue]. *)
Definition frameSchedule (shared : bool) : list Action :=
  [ Host; Host; Host; Host;
    Begin (if shared then GraphicQueue else ComputeQueue); Finish 0%nat;
    Host; ImageAvailable; Host;
    Begin GraphicQueue; Finish 0%nat;
    Host; Presented ].

Definition framesSchedule (shared : bool) (k : nat) : list Action :=
  concat (replicate k (frameSchedule shared)).

Definition frameWindows : list Window :=
  [WriteOpen; WriteClose; ReadOpen; ReadClose].

(** Between frames: nothing pending or running, the host between two
    [render] calls, and the semaphores as [prepareForRendering] left
    them. *)
Definition Idle (m : Machine) : Prop :=
  sems m = sems preparedMachine /\
  pendingGraphic m = [] /\ pendingCompute m = [] /\
  running m = [] /\ hostRest m = [].

(** *** What is queued, and what the host is about to queue *)

(** The queue a submission lands in, as [enqueue] decides. *)
Definition targetQueue (shared : bool) (q : Queue) : Queue :=
  match q, shared with
  | ComputeQueue, false => ComputeQueue
  | _, _ => GraphicQueue
  end.

Definition isQueue (a b : Queue) : bool :=
  match a, b with
  | GraphicQueue, GraphicQueue | ComputeQueue, ComputeQueue => true
  | _, _ => false
  end.

(** The batches the rest of the current [render] will submit to [q]. *)
Definition toSubmit (shared : bool) (q : Queue) (ops : list HostOp)
  : list SubmitInfo :=
  flat_map (fun op => match op with
                      | QueueSubmit q' s =>
                          if isQueue (targetQueue shared q') q then [s] else []
                      | _ => []
                      end) ops.

(** The graphics batch still owed to the frame whose compute batch has
    started. *)
Definition owedGraphics (p : Phase) : list SubmitInfo :=
  match p with
  | Writing | ReaderNext => [graphicsSubmitInfo]
  | WriterNext | Reading => []
  end.

(** In phase [p], what is pending together with what the host is about to
    submit is the graphics batch owed, if any, followed by whole frames:
    interleaved in the one queue when it is shared, split over the two
    queues otherwise. *)
Definition QueuesInvariant (shared : bool) (p : Phase) (m : Machine) : Prop :=
  exists j : nat,
    if shared then
      pendingCompute m = [] /\
      pendingGraphic m ++ toSubmit true GraphicQueue (hostRest m)
      = owedGraphics p ++ concat (replicate j [computeSubmitInfo; graphicsSubmitInfo])
    else
      pendingCompute m ++ toSubmit false ComputeQueue (hostRest m)
      = replicate j computeSubmitInfo /\
      pendingGraphic m ++ toSubmit false GraphicQueue (hostRest m)
      = owedGraphics p ++ replicate j graphicsSubmitInfo.

Definition DrainInvariant (shared : bool) (m : Machine) : Prop :=
  exists p,
    phaseAfter WriterNext (bufferWindows (trace m)) = Some p /\
    phaseHolds p m /\
    QueuesInvariant shared p m.

(** Nothing submitted is left to run and the host is between frames. *)
Definition Quiescent (m : Machine) : Prop :=
  pendingGraphic m = [] /\ pendingCompute m = [] /\
  running m = [] /\ hostRest m = [].

(** Actions the queues still owe: two per pending batch, one per running
    batch. *)
Definition workLeft (m : Machine) : nat :=
  (2 * (List.length (pendingGraphic m) + List.length (pendingCompute m))
   + List.length (running m))%nat.

(** *** The order in which constructor arguments are evaluated

    C++ leaves unspecified in which order the three arguments of
    [glm::vec3(rndDist(rndEngine), rndDist(rndEngine), rndDist(rndEngine))]
    are evaluated, at line 186 as at line 192, so which draw lands in
    which component depends on the compiler.  [OrderABC] evaluates
    argument A first, B second and C third. *)
Inductive ArgOrder :=
| Order123 | Order132 | Order213 | Order231 | Order312 | Order321.

(** The values of the first, second and third argument when the arguments
    are evaluated in the order [o] and the k-th evaluation yields [sk]. *)
Definition arrange (o : ArgOrder) (s1 s2 s3 : F32.t) : F32.t * F32.t * F32.t :=
  match o with
  | Order123 => (s1, s2, s3)
  | Order132 => (s1, s3, s2)
  | Order213 => (s2, s1, s3)
  | Order231 => (s3, s1, s2)
  | Order312 => (s2, s3, s1)
  | Order321 => (s3, s2, s1)
  end.

Section InitializerInOrder.
Context {G : Type} `{RandomEngine G}.

(** The arguments of line 186 are evaluated in the order [oPos], those of
    line 192 in the order [oVel]. *)
Variables (oPos oVel : ArgOrder).

(** The [else] branch of the inner loop body (lines 185-196). *)
Definition orbitingParticleIn (i : Z) (attractor : vec3) (g : G) : Particle * G :=
  let '(s1, g) := rndDist g in
  let '(s2, g) := rndDist g in
  let '(s3, g) := rndDist g in
  let '(rx, ry, rz) := arrange oPos s1 s2 s3 in
  let position := vec3_add attractor (vec3_scale (Vec3 rx ry rz) (F32.lit 3 4)) in
  let position :=
    set_y position (y3 position * flattenFactor position attractor)%f32 in
  let angular :=
    vec3_scale (Vec3 (F32.lit 1 2) (F32.lit 3 2) (F32.lit 1 2))
               (if i mod 2 =? 0 then F32.of_Z 1 else F32.of_Z (-1)) in
  let '(t1, g) := rndDist g in
  let '(t2, g) := rndDist g in
  let '(t3, g) := rndDist g in
  let '(vx, vy, vz) := arrange oVel t1 t2 t3 in
  let velocity :=
    vec3_add (cross (vec3_sub position attractor) angular)
             (Vec3 vx vy (vz * F32.lit 25 1000)%f32) in
  let '(m, g) := rndDist g in
  ({| pos := vec4_of position (massOfSample m);
      vel := vec4_of velocity F32.zero |}, g).

(** The body of the inner loop without the store. *)
Definition makeParticleIn (attrSize : Z) (i j : Z) (attractor : vec3) (g : G)
  : Particle * G :=
  let '(p, g) :=
    if j =? 0 then (centerParticle attractor, g)
    else orbitingParticleIn i attractor g in
  ({| pos := pos p; vel := set_w (vel p) (gradientOf i attrSize) |}, g).

(** The body of the inner loop, as [innerBody]. *)
Definition innerBodyIn (attr : list vec3) (ppa : Z) (i j : nat)
    (st : list Particle * G) : list Particle * G :=
  let '(buf, g) := st in
  match attr !! i with
  | Some a =>
      let '(p, g) :=
        makeParticleIn (ATTRACTORS_SIZE attr) (Z.of_nat i) (Z.of_nat j) a g in
      (<[ Z.to_nat (U32.wrap (Z.of_nat i * ppa + Z.of_nat j)) := p ]> buf, g)
  | None => (buf, g)
  end.

(** The two loops of lines 171-202 with the engine they leave behind. *)
Definition initLoopIn (attr : list vec3) (ppa : Z) (seed : Z) : list Particle * G :=
  forLoop (Z.to_nat (ATTRACTORS_SIZE attr))
    (fun i => forLoop (Z.to_nat ppa) (innerBodyIn attr ppa i))
    (replicate (Z.to_nat (numParticlesOf attr ppa)) zeroParticle,
     seedEngine seed).

(** [FilledFrom] for [initLoopIn]. *)
Definition FilledFromIn (attr : list vec3) (g0 : G) (total perGroup : nat)
    (i j : nat) (st : list Particle * G) : Prop :=
  List.length (fst st) = total /\
  snd st = advanceEngine (drawsBefore perGroup i j) g0 /\
  forall (i' j' : nat) (a : vec3),
    (j' < perGroup)%nat ->
    (i' < i)%nat \/ (i' = i /\ (j' < j)%nat) ->
    attr !! i' = Some a ->
    fst st !! (i' * perGroup + j')%nat
    = Some (fst (makeParticleIn (ATTRACTORS_SIZE attr) (Z.of_nat i') (Z.of_nat j') a
                   (advanceEngine (drawsBefore perGroup i' j') g0))).

End InitializerInOrder.

End NBody.

(** * Properties *)

Import NBody.

(** ** Unsigned arithmetic *)

Lemma wrap_small (x : Z) : U32.in_range x -> U32.wrap x = x.
Proof. intros Hx. unfold U32.wrap. apply Z.mod_small. exact Hx. Qed.

Lemma ceilDiv_floor_iff (n : Z) :
  0 <= n -> (n / 256 = ceilDiv n 256 <-> n mod 256 = 0).
Proof.
  intros Hn. unfold ceilDiv.
  pose proof (Z.div_mod n 256 ltac:(lia)) as Hdm.
  pose proof (Z.mod_pos_bound n 256 ltac:(lia)) as Hb.
  split; intros H.
  - assert (Hlt : n + 256 - 1 < 256 * (n / 256) + 256).
    { rewrite H at 1.
      pose proof (Z.mul_div_le (n + 256 - 1) 256 ltac:(lia)).
      pose proof (Z.mod_pos_bound (n + 256 - 1) 256 ltac:(lia)).
      pose proof (Z.div_mod (n + 256 - 1) 256 ltac:(lia)). lia. }
    lia.
  - replace (n + 256 - 1) with (255 + (n / 256) * 256) by lia.
    rewrite Z.div_add by lia. reflexivity.
Qed.

(** ** Ownership-transfer barriers *)

Section BarrierFacts.
Variables (g c : Z).

Lemma familiesDiffer_true : g <> c -> familiesDiffer g c = true.
Proof. intros H. unfold familiesDiffer. apply negb_true_iff, Z.eqb_neq, H. Qed.

End BarrierFacts.



(** C6. When the two queue families differ, the compute command buffer
    starts with the acquire barrier (source access none, destination access
    shader-write, from the graphics family to the compute family), then
    records both dispatches, and ends with the release barrier (source
    access shader-write, destination access none, from the compute family
    back to the graphics family). *)
Theorem compute_buffer_acquire_first_release_last (g c numParticles : Z) :
  g <> c ->
  buildComputeCommandBuffer g c numParticles
  = Vk.CmdPipelineBarrier Vk.TOP_OF_PIPE Vk.COMPUTE_SHADER
      {| Vk.srcAccessMask := Vk.VK_ACCESS_NONE;
         Vk.dstAccessMask := Vk.VK_ACCESS_SHADER_WRITE_BIT;
         Vk.srcQueueFamilyIndex := g;
         Vk.dstQueueFamilyIndex := c;
         Vk.buffer := Vk.StorageBuffer |}
    :: [ Vk.CmdBindPipeline Vk.PipelineCalculate;
         Vk.CmdBindDescriptorSets;
         Vk.CmdDispatch (numParticles / 256) 1 1;
         secondComputePassBufferBarrier;
         Vk.CmdBindPipeline Vk.PipelineIntegrate;
         Vk.CmdDispatch (numParticles / 256) 1 1 ]
    ++ [ Vk.CmdPipelineBarrier Vk.COMPUTE_SHADER Vk.BOTTOM_OF_PIPE
           {| Vk.srcAccessMask := Vk.VK_ACCESS_SHADER_WRITE_BIT;
              Vk.dstAccessMask := Vk.VK_ACCESS_NONE;
              Vk.srcQueueFamilyIndex := c;
              Vk.dstQueueFamilyIndex := g;
              Vk.buffer := Vk.StorageBuffer |} ].
Proof.
  intros Hne. unfold buildComputeCommandBuffer.
  rewrite (familiesDiffer_true g c Hne). reflexivity.
Qed.

Lemma compute_buffer_acquire_first_release_last_witness :
  buildComputeCommandBuffer 0 1 24576
  = computeAcquire 0 1
    :: [ Vk.CmdBindPipeline Vk.PipelineCalculate;
         Vk.CmdBindDescriptorSets;
         Vk.CmdDispatch 96 1 1;
         secondComputePassBufferBarrier;
         Vk.CmdBindPipeline Vk.PipelineIntegrate;
         Vk.CmdDispatch 96 1 1 ]
    ++ [ computeRelease 0 1 ].
Proof.
  exact (compute_buffer_acquire_first_release_last 0 1 24576 ltac:(lia)).
Defined.

(** ** Dispatch sizes *)

Lemma dispatches_compute (g c n : Z) :
  Vk.dispatches (buildComputeCommandBuffer g c n) = [n / 256; n / 256].
Proof.
  unfold buildComputeCommandBuffer. destruct (familiesDiffer g c); reflexivity.
Qed.

(** C3, as the code has it. Both dispatches are issued with
    [numParticles / 256] workgroups, the quotient rounded down; this is
    [ceil(numParticles / 256)] exactly when [numParticles] is a multiple of
    256, and one less otherwise. *)
Theorem dispatch_count_is_floor (g c n : Z) :
  0 <= n ->
  Vk.dispatches (buildComputeCommandBuffer g c n) = [n / 256; n / 256] /\
  (n / 256 = ceilDiv n WORKGROUP_SIZE <-> n mod 256 = 0) /\
  (n mod 256 <> 0 -> n / 256 = ceilDiv n WORKGROUP_SIZE - 1).
Proof.
  intros Hn. split; [apply dispatches_compute|].
  split; [apply ceilDiv_floor_iff; exact Hn|].
  intros Hrem. unfold ceilDiv, WORKGROUP_SIZE.
  pose proof (Z.div_mod n 256 ltac:(lia)) as Hdm.
  pose proof (Z.mod_pos_bound n 256 ltac:(lia)) as Hb.
  replace (n + 256 - 1) with ((n mod 256 - 1) + (n / 256 + 1) * 256) by lia.
  rewrite Z.div_add by lia.
  rewrite (Z.div_small (n mod 256 - 1) 256) by lia. lia.
Qed.

Lemma dispatch_count_is_floor_witness :
  Vk.dispatches (buildComputeCommandBuffer 0 1 24576) = [96; 96] /\
  (24576 / 256 = ceilDiv 24576 WORKGROUP_SIZE <-> 24576 mod 256 = 0) /\
  (24576 mod 256 <> 0 -> 24576 / 256 = ceilDiv 24576 WORKGROUP_SIZE - 1).
Proof.
  exact (dispatch_count_is_floor 0 1 24576 ltac:(lia)).
Defined.

(** C3 as stated fails: with 257 particles the two dispatches are issued
    with one workgroup each, while [ceil(257 / 256)] is two. *)
Lemma dispatch_count_not_ceil :
  Vk.dispatches (buildComputeCommandBuffer 0 1 257)
  <> [ceilDiv 257 WORKGROUP_SIZE; ceilDiv 257 WORKGROUP_SIZE].
Proof. rewrite dispatches_compute. vm_compute. discriminate. Qed.

(** ** Coverage of the particle indices *)

Lemma map_of_nat_seq (a n : nat) :
  map Z.of_nat (seq a n) = map (fun l => Z.of_nat a + Z.of_nat l) (seq 0 n).
Proof.
  induction n as [|n IH]; [reflexivity|].
  rewrite !seq_S, !map_app, IH. cbn [map]. f_equal. f_equal. lia.
Qed.

Lemma invocations_by_group (w k : nat) :
  flat_map (fun g => map (fun l => Z.of_nat g * Z.of_nat w + Z.of_nat l) (seq 0 w))
           (seq 0 k)
  = map Z.of_nat (seq 0 (k * w)).
Proof.
  induction k as [|k IH]; [reflexivity|].
  rewrite seq_S, flat_map_app, IH. cbn [flat_map]. rewrite app_nil_r.
  replace (S k * w)%nat with (k * w + w)%nat by lia.
  rewrite seq_app, map_app. f_equal.
  rewrite map_of_nat_seq. apply map_ext. intros l. lia.
Qed.

Lemma globalInvocations_seq (groups : Z) :
  0 <= groups ->
  globalInvocations groups
  = map Z.of_nat (seq 0 (Z.to_nat (groups * WORKGROUP_SIZE))).
Proof.
  intros Hg.
  transitivity (map Z.of_nat (seq 0 (Z.to_nat groups * Z.to_nat WORKGROUP_SIZE))).
  - rewrite <- invocations_by_group. reflexivity.
  - do 2 f_equal. unfold WORKGROUP_SIZE. lia.
Qed.

Lemma globalInvocations_configured (android : bool) :
  let n := numParticlesOf attractors (PARTICLES_PER_ATTRACTOR android) in
  globalInvocations (n / 256) = map Z.of_nat (seq 0 (Z.to_nat n)).
Proof.
  intros n.
  assert (Hn : n = if android then 18432 else 24576)
    by (destruct android; reflexivity).
  rewrite globalInvocations_seq by (rewrite Hn; destruct android; vm_compute; discriminate).
  do 3 f_equal. rewrite Hn. destruct android; reflexivity.
Qed.

(** C10. In both compiled configurations (six attractors with 4096
    particles each, 3072 each on Android) the particle count is a multiple
    of 256, the workgroup count [numParticles / 256] that is dispatched
    equals [ceil(numParticles / 256)], and the threads of a dispatch are
    exactly the particle indices [0 .. numParticles - 1], each once: none
    is missing, none is repeated and none is past the end. *)
Theorem configured_dispatch_covers_particles (android : bool) (g c : Z) :
  let n := numParticlesOf attractors (PARTICLES_PER_ATTRACTOR android) in
  n = (if android then 18432 else 24576) /\
  n mod WORKGROUP_SIZE = 0 /\
  Vk.dispatches (buildComputeCommandBuffer g c n)
    = [ceilDiv n WORKGROUP_SIZE; ceilDiv n WORKGROUP_SIZE] /\
  globalInvocations (n / 256) = map Z.of_nat (seq 0 (Z.to_nat n)) /\
  List.NoDup (globalInvocations (n / 256)) /\
  (forall t, In t (globalInvocations (n / 256)) <-> 0 <= t < n).
Proof.
  intros n.
  assert (Hn : n = if android then 18432 else 24576)
    by (destruct android; reflexivity).
  assert (Hinv : globalInvocations (n / 256) = map Z.of_nat (seq 0 (Z.to_nat n)))
    by apply globalInvocations_configured.
  split; [exact Hn|].
  split; [rewrite Hn; destruct android; reflexivity|].
  split.
  { rewrite dispatches_compute, Hn. destruct android; reflexivity. }
  split; [exact Hinv|].
  rewrite Hinv. split.
  - apply Finite.Injective_map_NoDup; [|apply List.seq_NoDup].
    intros a b Hab. lia.
  - intros t. rewrite in_map_iff. split.
    + intros [k [<- Hk]]. apply in_seq in Hk.
      assert (0 <= n) by (rewrite Hn; destruct android; lia). lia.
    + intros Ht. exists (Z.to_nat t). split; [lia|]. apply in_seq. lia.
Qed.

(** ** The semaphore chain *)

Lemma phaseAfter_app (p : Phase) (ws1 ws2 : list Window) :
  phaseAfter p (ws1 ++ ws2)
  = match phaseAfter p ws1 with
    | Some q => phaseAfter q ws2
    | None => None
    end.
Proof.
  revert p. induction ws1 as [|w ws1 IH]; intros p; cbn; [reflexivity|].
  destruct (advance p w); [apply IH|reflexivity].
Qed.

Lemma bufferWindows_snoc (tr : list Event) (e : Event) :
  bufferWindows (tr ++ [e]) = bufferWindows tr ++ windowsOf e.
Proof.
  unfold bufferWindows. rewrite flat_map_app. cbn. now rewrite app_nil_r.
Qed.

Lemma phaseAfter_snoc (tr : list Event) (e : Event) (p : Phase) :
  phaseAfter WriterNext (bufferWindows tr) = Some p ->
  phaseAfter WriterNext (bufferWindows (tr ++ [e])) = phaseAfter p (windowsOf e).
Proof.
  intros Hp. now rewrite bufferWindows_snoc, phaseAfter_app, Hp.
Qed.

Lemma frameHostOp_render : List.Forall frameHostOp (render true).
Proof.
  unfold render, draw. cbn.
  repeat apply List.Forall_cons; try apply List.Forall_nil;
    unfold frameHostOp, frameBatch; auto.
Qed.

Lemma syncInvariant_prepared : SyncInvariant preparedMachine.
Proof.
  split; cbn; try constructor.
  exists WriterNext. cbn. auto.
Qed.

Ltac inv_some :=
  match goal with
  | H : Some _ = Some _ |- _ => injection H as <-
  | H : None = Some _ |- _ => discriminate H
  end.

Lemma syncInvariant_enqueue (shared : bool) (q : Queue) (s : SubmitInfo) (m : Machine) :
  frameBatch s -> SyncInvariant m -> SyncInvariant (enqueue shared q s m).
Proof.
  intros Hs [Hg Hc Hh Hp]. unfold enqueue.
  destruct q, shared; split; cbn; auto;
    apply List.Forall_app; split; auto.
Qed.

Lemma syncInvariant_start (s : SubmitInfo) (restG restC : list SubmitInfo)
    (m m' : Machine) :
  frameBatch s ->
  List.Forall frameBatch restG -> List.Forall frameBatch restC ->
  SyncInvariant m ->
  startBatch s restG restC m = Some m' ->
  SyncInvariant m'.
Proof.
  intros Hs HG HC [_ _ Hh [p [Htr Hp]]] Hstart. unfold startBatch in Hstart.
  destruct (forallb _ _) eqn:Hwait; [|discriminate]. inv_some.
  split; cbn; auto.
  rewrite (phaseAfter_snoc _ _ _ Htr).
  destruct m as [[sg sc sp sr] pg pc rn tr hl hr]. cbn in *.
  destruct Hs as [-> | ->]; cbn in *;
    destruct p; cbn in Hp; destruct Hp as (Hsg & Hsc & Hrn); subst;
    try discriminate Hwait.
  - exists Writing. cbn. auto.
  - exists Reading. cbn. auto.
Qed.

Lemma syncInvariant_step (shared : bool) (m m' : Machine) (a : Action) :
  SyncInvariant m -> step shared m a = Some m' -> SyncInvariant m'.
Proof.
  intros Hinv Hstep. destruct a as [|q|k| |]; cbn in Hstep.
  - (* the host *)
    destruct (hostRest m) as [|op rest] eqn:Hrest; inv_some.
    + destruct Hinv as [Hg Hc Hh Hp]. split; cbn; auto using frameHostOp_render.
    + assert (Hop : frameHostOp op /\ List.Forall frameHostOp rest).
      { destruct Hinv as [_ _ Hh _]. rewrite Hrest in Hh.
        now apply List.Forall_cons_iff in Hh. }
      destruct Hop as [Hop Hrest'].
      assert (Hbase : SyncInvariant (logHostOp op (withHostRest rest m))).
      { destruct Hinv as [Hg Hc Hh Hp]. split; cbn; auto. }
      destruct op; cbn; auto using syncInvariant_enqueue.
  - (* a queue starts a batch *)
    destruct q.
    + destruct (pendingGraphic m) as [|s rest] eqn:Hpend; [discriminate|].
      pose proof (inv_pendingGraphic m Hinv) as Hg. rewrite Hpend in Hg.
      apply List.Forall_cons_iff in Hg. destruct Hg as [Hs Hg].
      exact (syncInvariant_start s rest (pendingCompute m) m m' Hs Hg
               (inv_pendingCompute m Hinv) Hinv Hstep).
    + destruct (pendingCompute m) as [|s rest] eqn:Hpend; [discriminate|].
      pose proof (inv_pendingCompute m Hinv) as Hc. rewrite Hpend in Hc.
      apply List.Forall_cons_iff in Hc. destruct Hc as [Hs Hc].
      exact (syncInvariant_start s (pendingGraphic m) rest m m' Hs
               (inv_pendingGraphic m Hinv) Hc Hinv Hstep).
  - (* a batch completes *)
    destruct (running m !! k) as [s|] eqn:Hk; [|discriminate]. inv_some.
    destruct Hinv as [Hg Hc Hh [p [Htr Hp]]].
    split; cbn; auto.
    rewrite (phaseAfter_snoc _ _ _ Htr).
    destruct m as [[sg sc sp sr] pg pc rn tr hl hr]. cbn in *.
    destruct p; cbn in Hp; destruct Hp as (Hsg & Hsc & Hrn); subst;
      destruct k; cbn in Hk; try discriminate Hk; inv_some; cbn.
    + exists ReaderNext. cbn. auto.
    + exists WriterNext. cbn. auto.
  - (* an image becomes available *)
    inv_some. destruct Hinv as [Hg Hc Hh [p [Htr Hp]]].
    split; cbn; auto. exists p. split; [exact Htr|].
    destruct p; cbn in *; exact Hp.
  - (* an image has been presented *)
    destruct (sRenderComplete (sems m)); [|discriminate]. inv_some.
    destruct Hinv as [Hg Hc Hh [p [Htr Hp]]].
    split; cbn; auto. exists p. split; [exact Htr|].
    destruct p; cbn in *; exact Hp.
Qed.

Lemma run_invariant (P : Machine -> Prop) (shared : bool) :
  (forall m m' a, P m -> step shared m a = Some m' -> P m') ->
  forall acts m m', P m -> run shared acts m = Some m' -> P m'.
Proof.
  intros Hstep acts. induction acts as [|a acts IH]; intros m m' Hm Hrun; cbn in Hrun.
  - now inv_some.
  - destruct (step shared m a) as [m1|] eqn:Hs; [|discriminate].
    eapply IH; [|exact Hrun]. eapply Hstep; eauto.
Qed.

Lemma syncInvariant_run (shared : bool) (acts : list Action) (m : Machine) :
  run shared acts preparedMachine = Some m -> SyncInvariant m.
Proof.
  apply (run_invariant SyncInvariant shared (syncInvariant_step shared)).
  exact syncInvariant_prepared.
Qed.

(** C1. [draw] submits the compute batch waiting on [graphics.semaphore]
    and signaling [compute.semaphore], then the graphics batch waiting on
    [compute.semaphore] and the image-available semaphore and signaling
    [graphics.semaphore]; [graphics.semaphore] is the one semaphore already
    signaled when the first frame starts.  Hence, however the host, the two
    queues and the presentation engine interleave, and whether or not both
    roles share one queue, the write windows of the compute batches and the
    read windows of the graphics batches strictly alternate, starting with
    a write, and at no time have two batches started without one of them
    having completed. *)
Theorem semaphore_chain_alternates (shared : bool) (acts : list Action) (m : Machine) :
  run shared acts preparedMachine = Some m ->
  draw = [ QueueSubmit ComputeQueue
             {| waitSemaphores := [GraphicsSemaphore];
                waitDstStageMask := [Vk.COMPUTE_SHADER];
                commandBuffers := [ComputeCommands];
                signalSemaphores := [ComputeSemaphore] |};
           PrepareFrame;
           QueueSubmit GraphicQueue
             {| waitSemaphores := [ComputeSemaphore; PresentComplete];
                waitDstStageMask := [Vk.VERTEX_INPUT; Vk.COLOR_ATTACHMENT_OUTPUT];
                commandBuffers := [DrawCommands];
                signalSemaphores := [GraphicsSemaphore; RenderComplete] |};
           SubmitFrame ] /\
  sems preparedMachine
  = {| sGraphics := true; sCompute := false;
       sPresentComplete := false; sRenderComplete := false |} /\
  strictlyAlternates (bufferWindows (trace m)) = true /\
  (List.length (running m) <= 1)%nat.
Proof.
  intros Hrun. split; [reflexivity|]. split; [reflexivity|].
  destruct (syncInvariant_run shared acts m Hrun) as [_ _ _ [p [Htr Hp]]].
  split.
  - unfold strictlyAlternates. now rewrite Htr.
  - destruct p; cbn in Hp; destruct Hp as (_ & _ & ->); cbn; lia.
Qed.

Lemma semaphore_chain_alternates_witness :
  exists m,
    run false oneFrameSchedule preparedMachine = Some m /\
    bufferWindows (trace m)
    = [WriteOpen; WriteClose; ReadOpen; ReadClose; WriteOpen] /\
    strictlyAlternates (bufferWindows (trace m)) = true /\
    (List.length (running m) <= 1)%nat.
Proof.
  eexists. split; [vm_compute; reflexivity|]. split; [reflexivity|].
  apply (semaphore_chain_alternates false oneFrameSchedule).
  vm_compute; reflexivity.
Defined.

(** ** The per-frame order of the host *)

Lemma concat_replicate_snoc {A : Type} (k : nat) (l : list A) :
  concat (replicate (S k) l) = concat (replicate k l) ++ l.
Proof.
  induction k as [|k IH].
  - cbn. now rewrite app_nil_r.
  - change (replicate (S (S k)) l) with (l :: replicate (S k) l).
    cbn [concat]. rewrite IH at 1.
    change (replicate (S k) l) with (l :: replicate k l). cbn [concat].
    now rewrite app_assoc.
Qed.

Lemma hostInvariant_step (shared : bool) (m m' : Machine) (a : Action) :
  HostInvariant m -> step shared m a = Some m' -> HostInvariant m'.
Proof.
  unfold HostInvariant. intros [k Hk] Hstep.
  destruct a as [|q|k'| |]; cbn in Hstep.
  - destruct (hostRest m) as [|op rest] eqn:Hrest; inv_some.
    + exists (S k). rewrite concat_replicate_snoc, <- Hk.
      unfold withHostRest. cbn [hostLog hostRest].
      now rewrite app_nil_r.
    + exists k. rewrite <- Hk.
      destruct op; cbn; try (destruct q, shared; cbn);
        now rewrite <- app_assoc.
  - exists k.
    destruct q;
      [destruct (pendingGraphic m)|destruct (pendingCompute m)];
      try discriminate; unfold startBatch in Hstep;
      destruct (forallb _ _); try discriminate; inv_some; exact Hk.
  - destruct (running m !! k'); [|discriminate]. inv_some. exists k. exact Hk.
  - inv_some. exists k. exact Hk.
  - destruct (sRenderComplete (sems m)); [|discriminate]. inv_some.
    exists k. exact Hk.
Qed.

Lemma hostInvariant_prepared : HostInvariant preparedMachine.
Proof. exists 0%nat. reflexivity. Qed.

(** C7. A call of [render] on a prepared example performs, in this order:
    the write of the compute uniform buffer, the write of the graphics
    uniform buffer, the submission of the compute command buffer, the
    acquisition of the next image, the submission of the graphics command
    buffer, the presentation; an unprepared example performs nothing.
    Whatever the queues and the presentation engine do in between, what the
    host has done and has left to do is always a whole number of these
    sequences. *)
Theorem render_frame_sequence (shared : bool) (acts : list Action) (m : Machine) :
  run shared acts preparedMachine = Some m ->
  render true
  = [ UpdateComputeUniformBuffers;
      UpdateGraphicsUniformBuffers;
      QueueSubmit ComputeQueue computeSubmitInfo;
      PrepareFrame;
      QueueSubmit GraphicQueue graphicsSubmitInfo;
      SubmitFrame ] /\
  render false = [] /\
  exists k : nat, hostLog m ++ hostRest m = concat (replicate k (render true)).
Proof.
  intros Hrun. split; [reflexivity|]. split; [reflexivity|].
  exact (run_invariant HostInvariant shared (hostInvariant_step shared)
           acts preparedMachine m hostInvariant_prepared Hrun).
Qed.

Lemma render_frame_sequence_witness :
  exists m,
    run false oneFrameSchedule preparedMachine = Some m /\
    hostLog m = render true ++ [UpdateComputeUniformBuffers;
                                UpdateGraphicsUniformBuffers;
                                QueueSubmit ComputeQueue computeSubmitInfo] /\
    exists k : nat, hostLog m ++ hostRest m = concat (replicate k (render true)).
Proof.
  eexists. split; [vm_compute; reflexivity|]. split; [reflexivity|].
  apply (render_frame_sequence false oneFrameSchedule).
  vm_compute; reflexivity.
Defined.

(** ** The particle initializer *)

Lemma forLoop_S {S : Type} (n : nat) (body : nat -> S -> S) (s : S) :
  forLoop (Datatypes.S n) body s = body n (forLoop n body s).
Proof. unfold forLoop. now rewrite seq_S, fold_left_app. Qed.

Section InitializerFacts.
Context {G : Type} `{RandomEngine G}.
Variables (attr : list Glm.vec3) (ppa : Z).
Hypothesis ppa_pos : 0 < ppa.
Hypothesis no_wrap : Z.of_nat (List.length attr) * ppa < U32.modulus.

Let groups : nat := List.length attr.
Let perGroup : nat := Z.to_nat ppa.
Let total : nat := (groups * perGroup)%nat.

Lemma attractors_size : ATTRACTORS_SIZE attr = Z.of_nat groups.
Proof.
  unfold ATTRACTORS_SIZE. apply wrap_small. unfold U32.in_range.
  subst groups. nia.
Qed.

Lemma numParticles_nowrap : numParticlesOf attr ppa = Z.of_nat groups * ppa.
Proof.
  unfold numParticlesOf, U32.mul. rewrite attractors_size.
  apply wrap_small. unfold U32.in_range. subst groups. nia.
Qed.

Lemma numParticles_total : Z.to_nat (numParticlesOf attr ppa) = total.
Proof. rewrite numParticles_nowrap. subst total perGroup. nia. Qed.

Lemma slot_nowrap (i j : nat) :
  (i < groups)%nat -> (j < perGroup)%nat ->
  Z.to_nat (U32.wrap (Z.of_nat i * ppa + Z.of_nat j)) = (i * perGroup + j)%nat
  /\ (i * perGroup + j < total)%nat.
Proof.
  intros Hi Hj. subst total perGroup groups.
  assert (Hlt : Z.of_nat i * ppa + Z.of_nat j < Z.of_nat (List.length attr) * ppa) by nia.
  rewrite wrap_small by (unfold U32.in_range; nia).
  split; nia.
Qed.

Variable Q : nat -> nat -> Particle -> Prop.
Hypothesis makeParticle_Q :
  forall (i j : nat) (a : Glm.vec3) (g : G),
    attr !! i = Some a -> (j < perGroup)%nat ->
    Q i j (fst (makeParticle (ATTRACTORS_SIZE attr) (Z.of_nat i) (Z.of_nat j) a g)).

Lemma innerBody_Filled (i j : nat) (st : list Particle * G) :
  (i < groups)%nat -> (j < perGroup)%nat ->
  Filled Q total perGroup i j (fst st) ->
  Filled Q total perGroup i (Datatypes.S j) (fst (innerBody attr ppa i j st)).
Proof.
  intros Hi Hj [Hlen Hfill]. destruct st as [buf g]. cbn [fst] in *.
  unfold innerBody.
  destruct (lookup_lt_is_Some_2 attr i Hi) as [a Ha]. rewrite Ha.
  pose proof (makeParticle_Q i j a g Ha Hj) as HQ.
  destruct (makeParticle _ _ _ a g) as [p g']. cbn [fst] in *.
  destruct (slot_nowrap i j Hi Hj) as [-> Hslot].
  split; [now rewrite length_insert|].
  intros i' j' Hj' Hbefore.
  destruct (decide ((i' * perGroup + j')%nat = (i * perGroup + j)%nat)) as [Heq|Hne].
  - assert (i' = i /\ j' = j) as [-> ->] by nia.
    exists p. split; [|exact HQ].
    apply list_lookup_insert_eq. lia.
  - rewrite list_lookup_insert_ne by congruence.
    apply Hfill; [exact Hj'|]. destruct Hbefore as [Hlt|[-> Hlt]]; [now left|].
    right. split; [reflexivity|]. assert (j' <> j) by congruence. lia.
Qed.

Lemma innerLoop_Filled (i : nat) (st : list Particle * G) (j : nat) :
  (i < groups)%nat -> (j <= perGroup)%nat ->
  Filled Q total perGroup i 0 (fst st) ->
  Filled Q total perGroup i j (fst (forLoop j (innerBody attr ppa i) st)).
Proof.
  intros Hi Hj H0. induction j as [|j IH]; [exact H0|].
  rewrite forLoop_S. apply innerBody_Filled; [exact Hi|lia|apply IH; lia].
Qed.

Lemma Filled_next_group (i : nat) (buf : list Particle) :
  Filled Q total perGroup i perGroup buf ->
  Filled Q total perGroup (Datatypes.S i) 0 buf.
Proof.
  intros [Hlen Hfill]. split; [exact Hlen|].
  intros i' j' Hj' [Hlt|[-> Hlt]]; [|lia].
  apply Hfill; [exact Hj'|].
  destruct (decide (i' = i)) as [->|Hne]; [right; auto|left; lia].
Qed.

Lemma outerLoop_Filled (st : list Particle * G) (i : nat) :
  (i <= groups)%nat ->
  List.length (fst st) = total ->
  Filled Q total perGroup i 0
    (fst (forLoop i (fun i => forLoop perGroup (innerBody attr ppa i)) st)).
Proof.
  intros Hi Hlen. induction i as [|i IH].
  - split; [exact Hlen|]. intros i' j' _ [Hlt|[_ Hlt]]; lia.
  - rewrite forLoop_S. apply Filled_next_group.
    apply innerLoop_Filled; [lia|lia|apply IH; lia].
Qed.

(** After the two loops the vector has [attractors.size() * perGroup]
    entries, and the entry of particle [j] of group [i] satisfies [Q]. *)
Lemma initParticles_Filled (seed : Z) :
  Filled Q total perGroup groups 0 (initParticles attr ppa seed).
Proof.
  unfold initParticles. rewrite attractors_size, Nat2Z.id.
  apply outerLoop_Filled; [reflexivity|].
  cbn [fst]. rewrite length_replicate. apply numParticles_total.
Qed.

(** Every entry of the filled vector satisfies [Q] for the group and the
    place its index decomposes into. *)
Lemma initParticles_lookup (seed : Z) (idx : nat) (p : Particle) :
  initParticles attr ppa seed !! idx = Some p ->
  (idx / perGroup < groups)%nat /\ Q (idx / perGroup) (idx mod perGroup) p.
Proof.
  intros Hp. destruct (initParticles_Filled seed) as [Hlen Hfill].
  assert (Hpos : (0 < perGroup)%nat) by (subst perGroup; lia).
  assert (Hidx : (idx < total)%nat).
  { rewrite <- Hlen. eapply lookup_lt_Some, Hp. }
  assert (Hi : (idx / perGroup < groups)%nat).
  { apply Nat.Div0.div_lt_upper_bound. subst total. lia. }
  assert (Hj : (idx mod perGroup < perGroup)%nat) by (apply Nat.mod_upper_bound; lia).
  split; [exact Hi|].
  destruct (Hfill (idx / perGroup)%nat (idx mod perGroup)%nat Hj (or_introl Hi))
    as [p' [Hp' HQ]].
  replace (idx / perGroup * perGroup + idx mod perGroup)%nat with idx in Hp'
    by (pose proof (Nat.div_mod_eq idx perGroup); lia).
  congruence.
Qed.

End InitializerFacts.

Section ParticleFacts.
Context {G : Type} `{RandomEngine G}.

Lemma makeParticle_gradient (n i j : Z) (a : Glm.vec3) (g : G) :
  gradientIndex (fst (makeParticle n i j a g)) = gradientOf i n.
Proof.
  unfold makeParticle. destruct (if j =? 0 then _ else _) as [p g']. reflexivity.
Qed.

Lemma makeParticle_center (n i : Z) (a : Glm.vec3) (g : G) :
  fst (makeParticle n i 0 a g)
  = {| pos := pos (centerParticle a);
       vel := Glm.set_w (vel (centerParticle a)) (gradientOf i n) |}.
Proof. reflexivity. Qed.

Lemma orbitingParticle_mass (i : Z) (a : Glm.vec3) (g : G) :
  exists s, mass (fst (orbitingParticle i a g)) = massOfSample s.
Proof.
  unfold orbitingParticle, rndVec3.
  repeat match goal with
         | |- context [rndDist ?g] => destruct (rndDist g)
         end.
  eexists. reflexivity.
Qed.

Lemma makeParticle_shape (n : Z) (i j : nat) (a : Glm.vec3) (g : G) :
  particleShape n i j (fst (makeParticle n (Z.of_nat i) (Z.of_nat j) a g)).
Proof.
  split; [apply makeParticle_gradient|]. split.
  - intros ->. change (Z.of_nat 0) with 0. rewrite makeParticle_center.
    split; reflexivity.
  - intros Hj. unfold makeParticle.
    destruct (Z.eqb_spec (Z.of_nat j) 0) as [E|_]; [lia|].
    destruct (orbitingParticle_mass (Z.of_nat i) a g) as [s Hs].
    destruct (orbitingParticle _ a g) as [p g']. exists s. exact Hs.
Qed.

End ParticleFacts.

(** ** The configured particle system *)

Lemma configured_in_range (android : bool) :
  0 < PARTICLES_PER_ATTRACTOR android /\
  Z.of_nat (List.length attractors) * PARTICLES_PER_ATTRACTOR android < U32.modulus.
Proof. destruct android; split; reflexivity. Qed.

Lemma configured_gradient_in_unit_interval (i : nat) :
  (i < List.length attractors)%nat ->
  let x := gradientOf (Z.of_nat i) (ATTRACTORS_SIZE attractors) in
  F32.leb F32.zero x = true /\ F32.ltb x F32.one = true.
Proof.
  intros Hi. cbn in Hi.
  do 6 (destruct i as [|i]; [split; vm_compute; reflexivity|]).
  lia.
Qed.

Section Configured.
Context {G : Type} `{RandomEngine G}.
Variables (android : bool) (seed : Z).

Let ppa : Z := PARTICLES_PER_ATTRACTOR android.
Let buf : list Particle := initParticles attractors ppa seed.

Lemma configured_shape (idx : nat) (p : Particle) :
  buf !! idx = Some p ->
  (idx / Z.to_nat ppa < List.length attractors)%nat /\
  particleShape (ATTRACTORS_SIZE attractors)
                (idx / Z.to_nat ppa) (idx mod Z.to_nat ppa) p.
Proof.
  destruct (configured_in_range android) as [Hpos Hrange].
  apply (initParticles_lookup attractors ppa Hpos Hrange
           (particleShape (ATTRACTORS_SIZE attractors))).
  intros i j a g _ _. apply makeParticle_shape.
Qed.

Lemma configured_center (i : nat) :
  (i < List.length attractors)%nat ->
  exists p, buf !! (i * Z.to_nat ppa)%nat = Some p /\
            particleShape (ATTRACTORS_SIZE attractors) i 0 p.
Proof.
  intros Hi. destruct (configured_in_range android) as [Hpos Hrange].
  destruct (initParticles_Filled attractors ppa Hpos Hrange
              (particleShape (ATTRACTORS_SIZE attractors))
              (fun i j a g _ _ => makeParticle_shape _ i j a g) seed)
    as [_ Hfill].
  destruct (Hfill i 0%nat ltac:(subst ppa; lia) (or_introl Hi)) as [p [Hp Hs]].
  exists p. rewrite Nat.add_0_r in Hp. auto.
Qed.

Lemma configured_length :
  Z.of_nat (List.length buf) = Z.of_nat (List.length attractors) * ppa.
Proof.
  destruct (configured_in_range android) as [Hpos Hrange].
  destruct (initParticles_Filled attractors ppa Hpos Hrange
              (fun _ _ _ => True) (fun _ _ _ _ _ _ => I) seed) as [Hlen _].
  subst buf. rewrite Hlen. subst ppa. lia.
Qed.

End Configured.

(** C8. For the six configured attractors and the configured number of
    particles per attractor (4096, or 3072 on Android), whatever the
    random engine and the seed: the particle vector has
    [attractors.size() * PARTICLES_PER_ATTRACTOR] entries, which is also
    [numParticles], and the first particle of every group has the zero
    vector as velocity, of length zero. *)
Theorem buffer_length_and_centers_at_rest
    {G : Type} `{RandomEngine G} (android : bool) (seed : Z) (i : nat) :
  (i < List.length attractors)%nat ->
  let ppa := PARTICLES_PER_ATTRACTOR android in
  let buf := initParticles attractors ppa seed in
  Z.of_nat (List.length buf) = Z.of_nat (List.length attractors) * ppa /\
  Z.of_nat (List.length buf) = numParticlesOf attractors ppa /\
  exists p, buf !! (i * Z.to_nat ppa)%nat = Some p /\
            velocity p = Glm.Vec3 F32.zero F32.zero F32.zero /\
            Glm.length (velocity p) = F32.zero.
Proof.
  intros Hi ppa buf.
  pose proof (configured_length android seed) as Hlen.
  split; [exact Hlen|]. split.
  { subst buf ppa. rewrite Hlen. destruct android; reflexivity. }
  destruct (configured_center android seed i Hi) as [p [Hp [_ [Hcenter _]]]].
  destruct (Hcenter eq_refl) as [_ Hvel].
  exists p. split; [exact Hp|]. split; [exact Hvel|].
  rewrite Hvel. reflexivity.
Qed.

Lemma buffer_length_and_centers_at_rest_witness :
  let buf := @initParticles unit (constEngine F32.one) attractors (4 * 1024) 0 in
  Z.of_nat (List.length buf) = 6 * 4096 /\
  Z.of_nat (List.length buf) = numParticlesOf attractors (4 * 1024) /\
  exists p, buf !! (5 * Z.to_nat (4 * 1024))%nat = Some p /\
            velocity p = Glm.Vec3 F32.zero F32.zero F32.zero /\
            Glm.length (velocity p) = F32.zero.
Proof.
  exact (@buffer_length_and_centers_at_rest unit (constEngine F32.one)
           false 0 5%nat ltac:(cbn; lia)).
Defined.

(** With an engine whose every sample is [x], a particle that is not the
    first of its group gets the mass [(x * 0.5 + 0.5) * 75]. *)
Lemma constEngine_orbiting_mass (x : F32.t) (i : Z) (a : Glm.vec3) :
  mass (fst (@orbitingParticle unit (constEngine x) i a tt)) = massOfSample x.
Proof. reflexivity. Qed.

(** C4 as stated fails: a normal sample below [-1] gives a non-positive
    mass; with the samples [-2] the second particle of the configured
    vector has mass [-37.5], which is not greater than zero. *)
Lemma mass_not_always_positive :
  exists p,
    @initParticles unit (constEngine (F32.of_Z (-2))) attractors
      (PARTICLES_PER_ATTRACTOR false) 0 !! 1%nat = Some p /\
    mass p = F32.sub F32.zero (F32.lit 75 2) /\
    F32.ltb F32.zero (mass p) = false.
Proof.
  destruct (configured_in_range false) as [Hpos Hrange].
  destruct (@initParticles_Filled unit (constEngine (F32.of_Z (-2)))
              attractors (PARTICLES_PER_ATTRACTOR false) Hpos Hrange
              (fun _ j p => j <> 0%nat -> mass p = massOfSample (F32.of_Z (-2))))
    with (seed := 0) as [_ Hfill].
  { intros i j a [] _ _ Hj. unfold makeParticle.
    destruct (Z.eqb_spec (Z.of_nat j) 0) as [E|_]; [lia|].
    exact (constEngine_orbiting_mass (F32.of_Z (-2)) (Z.of_nat i) a). }
  destruct (Hfill 0%nat 1%nat) as [p [Hp Hm]].
  { unfold PARTICLES_PER_ATTRACTOR. lia. }
  { left. cbn. lia. }
  exists p. split; [exact Hp|].
  rewrite (Hm ltac:(discriminate)). split; vm_compute; reflexivity.
Qed.

(** ** The vertical attenuation *)

(** In exact arithmetic the factor is 1 for every offset other than the
    zero vector: the length is taken of a vector that has just been
    normalized. *)
Lemma exact_flattenFactor_is_one (x y z : R) :
  (x, y, z) <> (0, 0, 0)%R -> Exact.flattenFactor (x, y, z) = 1%R.
Proof.
  intros Hne.
  unfold Exact.flattenFactor, Exact.length, Exact.normalize,
    Exact.inversesqrt, Exact.scale, Exact.dot.
  set (d := (x * x + y * y + z * z)%R).
  assert (Hd : (0 < d)%R).
  { subst d.
    pose proof (Rle_0_sqr x) as Hx2. pose proof (Rle_0_sqr y) as Hy2.
    pose proof (Rle_0_sqr z) as Hz2. unfold Rsqr in *.
    destruct (Req_dec x 0) as [->|Hx];
      [|pose proof (Rsqr_pos_lt x Hx); unfold Rsqr in *; lra].
    destruct (Req_dec y 0) as [->|Hy];
      [|pose proof (Rsqr_pos_lt y Hy); unfold Rsqr in *; lra].
    destruct (Req_dec z 0) as [->|Hz]; [congruence|].
    pose proof (Rsqr_pos_lt z Hz); unfold Rsqr in *; lra. }
  assert (Hs : (0 < sqrt d)%R) by (apply sqrt_lt_R0; exact Hd).
  replace (x * (1 / sqrt d) * (x * (1 / sqrt d))
           + y * (1 / sqrt d) * (y * (1 / sqrt d))
           + z * (1 / sqrt d) * (z * (1 / sqrt d)))%R
    with (d / (sqrt d * sqrt d))%R by (subst d; field; lra).
  clearbody d.
  rewrite (sqrt_sqrt d) by lra.
  replace (d / d)%R with 1%R by (field; lra).
  rewrite sqrt_1. lra.
Qed.

(** C5 on the code. For the first attractor [(5, 0, 0)], an offset of
    length 0.75 (samples [0, 1, 0]) and an offset of length 2.25 (samples
    [0, 3, 0]) both give [len = 1] and the factor [2 - len * len = 1], so
    the particle keeps its height [0.75], respectively [2.25]; for the
    samples [1, 1, 1] the factor is [1 + 2^-23], one unit in the last
    place above 1.  The factor does not follow the distance. *)
Theorem flatten_factor_ignores_distance :
  let a := Glm.Vec3 (F32.of_Z 5) F32.zero F32.zero in
  let offset (x y z : Z) :=
    Glm.vec3_scale (Glm.Vec3 (F32.of_Z x) (F32.of_Z y) (F32.of_Z z)) (F32.lit 3 4) in
  let particle (x y z : Z) :=
    fst (@orbitingParticle (list F32.t) (replayEngine []) 0 a
           (map F32.of_Z [x; y; z; 0; 0; 0; 1])) in
  List.nth_error attractors 0 = Some a /\
  Glm.length (offset 0 1 0) = F32.lit 3 4 /\
  Glm.length (offset 0 3 0) = F32.lit 9 4 /\
  Glm.length (Glm.normalize (offset 0 1 0)) = F32.one /\
  Glm.length (Glm.normalize (offset 0 3 0)) = F32.one /\
  flattenFactor (Glm.vec3_add a (offset 0 1 0)) a = F32.one /\
  flattenFactor (Glm.vec3_add a (offset 0 3 0)) a = F32.one /\
  flattenFactor (Glm.vec3_add a (offset 1 1 1)) a
    = F32.add F32.one (SFldexp F32.prec F32.emax F32.one (-23)) /\
  Glm.y4 (pos (particle 0 1 0)) = F32.lit 3 4 /\
  Glm.y4 (pos (particle 0 3 0)) = F32.lit 9 4.
Proof. repeat split; vm_compute; reflexivity. Qed.

(** * Further properties *)

(** ** The initializer, entry by entry *)

Section EngineFacts.
Context {G : Type} `{RandomEngine G}.

Lemma advanceEngine_add (a b : nat) (g : G) :
  advanceEngine (a + b) g = advanceEngine a (advanceEngine b g).
Proof. unfold advanceEngine. apply Nat.iter_add. Qed.

Lemma orbitingParticle_engine (i : Z) (a : Glm.vec3) (g : G) :
  snd (orbitingParticle i a g) = advanceEngine 7 g.
Proof.
  unfold orbitingParticle, rndVec3. cbv [advanceEngine Nat.iter nat_rect].
  repeat match goal with
         | |- context [let '(_, _) := rndDist ?g in _] =>
             destruct (rndDist g) as [? ?]; cbn [snd]
         end.
  reflexivity.
Qed.

Lemma makeParticle_engine (n i j : Z) (a : Glm.vec3) (g : G) :
  snd (makeParticle n i j a g) = if j =? 0 then g else advanceEngine 7 g.
Proof.
  unfold makeParticle. destruct (j =? 0); [reflexivity|].
  rewrite <- (orbitingParticle_engine i a g).
  destruct (orbitingParticle i a g). reflexivity.
Qed.

End EngineFacts.

Section InitializerExact.
Context {G : Type} `{RandomEngine G}.
Variables (attr : list Glm.vec3) (ppa : Z) (g0 : G).
Hypothesis ppa_pos : 0 < ppa.
Hypothesis no_wrap : Z.of_nat (List.length attr) * ppa < U32.modulus.

Let groups : nat := List.length attr.
Let perGroup : nat := Z.to_nat ppa.
Let total : nat := (groups * perGroup)%nat.

Lemma innerBody_FilledFrom (i j : nat) (st : list Particle * G) :
  (i < groups)%nat -> (j < perGroup)%nat ->
  FilledFrom attr g0 total perGroup i j st ->
  FilledFrom attr g0 total perGroup i (S j) (innerBody attr ppa i j st).
Proof.
  intros Hi Hj (Hlen & Heng & Hfill). destruct st as [buf g]. cbn [fst snd] in *.
  unfold innerBody.
  destruct (lookup_lt_is_Some_2 attr i Hi) as [a Ha]. rewrite Ha.
  pose proof (makeParticle_engine (ATTRACTORS_SIZE attr) (Z.of_nat i) (Z.of_nat j) a g)
    as Hsnd.
  destruct (makeParticle _ _ _ a g) as [p g'] eqn:Hmk. cbn [snd] in Hsnd.
  destruct (slot_nowrap attr ppa ppa_pos no_wrap i j Hi Hj) as [-> Hslot].
  fold perGroup in Hslot |- *. fold groups in Hslot. fold total in Hslot.
  split; [|split]; cbn [fst snd].
  - now rewrite length_insert.
  - rewrite Hsnd, Heng. destruct (Z.eqb_spec (Z.of_nat j) 0) as [E|E].
    + assert (j = 0%nat) as -> by lia. reflexivity.
    + rewrite <- advanceEngine_add. f_equal. unfold drawsBefore. lia.
  - intros i' j' a' Hj' Hbefore Ha'.
    destruct (decide ((i' * perGroup + j')%nat = (i * perGroup + j)%nat)) as [Heq|Hne].
    + assert (i' = i /\ j' = j) as [-> ->] by nia.
      assert (a' = a) as -> by congruence.
      rewrite list_lookup_insert_eq by lia.
      rewrite <- Heng, Hmk. reflexivity.
    + rewrite list_lookup_insert_ne by congruence.
      apply Hfill; [exact Hj'| |exact Ha'].
      destruct Hbefore as [Hlt|[-> Hlt]]; [now left|].
      right. split; [reflexivity|]. assert (j' <> j) by congruence. lia.
Qed.

Lemma innerLoop_FilledFrom (i : nat) (st : list Particle * G) (j : nat) :
  (i < groups)%nat -> (j <= perGroup)%nat ->
  FilledFrom attr g0 total perGroup i 0 st ->
  FilledFrom attr g0 total perGroup i j (forLoop j (innerBody attr ppa i) st).
Proof.
  intros Hi Hj H0. induction j as [|j IH]; [exact H0|].
  rewrite forLoop_S. apply innerBody_FilledFrom; [exact Hi|lia|apply IH; lia].
Qed.

Lemma FilledFrom_next_group (i : nat) (st : list Particle * G) :
  FilledFrom attr g0 total perGroup i perGroup st ->
  FilledFrom attr g0 total perGroup (S i) 0 st.
Proof.
  intros (Hlen & Heng & Hfill). split; [exact Hlen|]. split.
  - rewrite Heng. f_equal. unfold drawsBefore.
    assert (0 < perGroup)%nat by (subst perGroup; lia). nia.
  - intros i' j' a Hj' [Hlt|[-> Hlt]] Ha; [|lia].
    apply Hfill; [exact Hj'| |exact Ha].
    destruct (decide (i' = i)) as [->|Hne]; [right; auto|left; lia].
Qed.

Lemma outerLoop_FilledFrom (st : list Particle * G) (i : nat) :
  (i <= groups)%nat ->
  List.length (fst st) = total -> snd st = g0 ->
  FilledFrom attr g0 total perGroup i 0
    (forLoop i (fun i => forLoop perGroup (innerBody attr ppa i)) st).
Proof.
  intros Hi Hlen Hg. induction i as [|i IH].
  - split; [exact Hlen|]. split; [exact Hg|].
    intros i' j' a _ [Hlt|[_ Hlt]]; lia.
  - rewrite forLoop_S. apply FilledFrom_next_group.
    apply innerLoop_FilledFrom; [lia|lia|apply IH; lia].
Qed.

End InitializerExact.

Section InitializerClosedForm.
Context {G : Type} `{RandomEngine G}.
Variables (attr : list Glm.vec3) (ppa seed : Z).
Hypothesis ppa_pos : 0 < ppa.
Hypothesis no_wrap : Z.of_nat (List.length attr) * ppa < U32.modulus.

Lemma initLoop_FilledFrom :
  FilledFrom attr (seedEngine seed)
    (List.length attr * Z.to_nat ppa) (Z.to_nat ppa) (List.length attr) 0
    (initLoop attr ppa seed).
Proof.
  unfold initLoop. rewrite (attractors_size attr ppa ppa_pos no_wrap), Nat2Z.id.
  apply (outerLoop_FilledFrom attr ppa (seedEngine seed) ppa_pos no_wrap);
    [reflexivity| |reflexivity].
  cbn [fst]. rewrite length_replicate.
  apply (numParticles_total attr ppa ppa_pos no_wrap).
Qed.

End InitializerClosedForm.

(** ** Masses and gradient indices of the configured system *)

Section MassFacts.
Context {G : Type} `{RandomEngine G}.

(** The mass sample is the seventh draw made for the particle, after the
    three of the position and the three of the velocity, in whatever order
    those six are assigned. *)
Lemma orbitingParticle_mass_sample (i : Z) (a : Glm.vec3) (g : G) :
  mass (fst (orbitingParticle i a g))
  = massOfSample (fst (rndDist (advanceEngine 6 g))).
Proof.
  unfold orbitingParticle, rndVec3. cbv [advanceEngine Nat.iter nat_rect].
  repeat match goal with
         | |- context [let '(_, _) := rndDist ?g in _] =>
             destruct (rndDist g) as [? ?]; cbn [snd]
         end.
  reflexivity.
Qed.

Lemma makeParticle_mass_sample (n i j : Z) (a : Glm.vec3) (g : G) :
  j <> 0 ->
  mass (fst (makeParticle n i j a g))
  = massOfSample (fst (rndDist (advanceEngine 6 g))).
Proof.
  intros Hj. unfold makeParticle.
  destruct (Z.eqb_spec j 0) as [E|_]; [contradiction|].
  rewrite <- (orbitingParticle_mass_sample i a g).
  destruct (orbitingParticle i a g). reflexivity.
Qed.

End MassFacts.

(** C4, as the code has it. For the configured attractors, whatever the
    random engine and the seed: every particle's gradient index lies in
    [0, 1); the first particle of every group has mass 90000, which is
    positive; the mass of any other particle is
    [(x * 0.5 + 0.5) * 75], unclamped, for [x] the sample the engine
    yields on the seventh draw made for that particle. *)
Theorem gradient_in_unit_interval_center_mass_positive
    {G : Type} `{RandomEngine G} (android : bool) (seed : Z) (idx : nat) :
  let ppa := PARTICLES_PER_ATTRACTOR android in
  let perGroup := Z.to_nat ppa in
  Z.of_nat idx < numParticlesOf attractors ppa ->
  exists p,
    initParticles attractors ppa seed !! idx = Some p /\
    (F32.leb F32.zero (gradientIndex p) = true /\
     F32.ltb (gradientIndex p) F32.one = true) /\
    ((idx mod perGroup = 0)%nat ->
       mass p = F32.of_Z 90000 /\ F32.ltb F32.zero (mass p) = true) /\
    ((idx mod perGroup <> 0)%nat ->
       mass p
       = massOfSample
           (fst (rndDist
                   (advanceEngine
                      (drawsBefore perGroup (idx / perGroup) (idx mod perGroup) + 6)
                      (seedEngine seed))))).
Proof.
  intros ppa perGroup Hidx.
  destruct (configured_in_range android) as [Hpos Hrange]. fold ppa in Hpos, Hrange.
  destruct (initLoop_FilledFrom attractors ppa seed Hpos Hrange) as (_ & _ & Hfill).
  fold perGroup in Hfill.
  assert (HP : (0 < perGroup)%nat) by (subst perGroup; lia).
  assert (Hnum : numParticlesOf attractors ppa = Z.of_nat (List.length attractors) * ppa)
    by (subst ppa; destruct android; reflexivity).
  assert (Hi : (idx / perGroup < List.length attractors)%nat).
  { apply Nat.Div0.div_lt_upper_bound. subst perGroup. nia. }
  assert (Hj : (idx mod perGroup < perGroup)%nat) by (apply Nat.mod_upper_bound; lia).
  destruct (lookup_lt_is_Some_2 attractors _ Hi) as [a Ha].
  pose proof (Hfill _ _ a Hj (or_introl Hi) Ha) as Hentry.
  replace (idx / perGroup * perGroup + idx mod perGroup)%nat with idx in Hentry
    by (pose proof (Nat.div_mod_eq idx perGroup); lia).
  change (fst (initLoop attractors ppa seed)) with (initParticles attractors ppa seed)
    in Hentry.
  eexists. split; [exact Hentry|]. split; [|split].
  - rewrite makeParticle_gradient.
    apply configured_gradient_in_unit_interval, Hi.
  - intros Hzero. rewrite Hzero. change (Z.of_nat 0) with 0.
    rewrite makeParticle_center. split; reflexivity.
  - intros Hnz. rewrite makeParticle_mass_sample by lia.
    rewrite <- advanceEngine_add. do 4 f_equal. lia.
Qed.

Lemma gradient_in_unit_interval_center_mass_positive_witness :
  exists p,
    @initParticles unit (constEngine (F32.of_Z (-2))) attractors (4 * 1024) 0
      !! 4097%nat = Some p /\
    (F32.leb F32.zero (gradientIndex p) = true /\
     F32.ltb (gradientIndex p) F32.one = true) /\
    ((4097 mod Z.to_nat (4 * 1024) = 0)%nat ->
       mass p = F32.of_Z 90000 /\ F32.ltb F32.zero (mass p) = true) /\
    ((4097 mod Z.to_nat (4 * 1024) <> 0)%nat ->
       mass p
       = massOfSample
           (fst (@rndDist unit (constEngine (F32.of_Z (-2)))
                   (@advanceEngine unit (constEngine (F32.of_Z (-2)))
                      (drawsBefore (Z.to_nat (4 * 1024))
                         (4097 / Z.to_nat (4 * 1024))
                         (4097 mod Z.to_nat (4 * 1024)) + 6)
                      tt)))).
Proof.
  exact (@gradient_in_unit_interval_center_mass_positive unit
           (constEngine (F32.of_Z (-2))) false 0 4097%nat
           ltac:(vm_compute; reflexivity)).
Defined.

(** ** The initializer under any order of argument evaluation *)

Section InOrderFacts.
Context {G : Type} `{RandomEngine G}.
Variables (oPos oVel : ArgOrder).

Ltac destruct_draws :=
  repeat first
    [ match goal with
      | |- context [let '(_, _) := rndDist ?g in _] =>
          destruct (rndDist g) as [? ?]; cbn [snd]
      end
    | match goal with
      | |- context [arrange ?o ?a ?b ?c] =>
          destruct (arrange o a b c) as [[? ?] ?]
      end ].

Lemma orbitingParticleIn_engine (i : Z) (a : Glm.vec3) (g : G) :
  snd (orbitingParticleIn oPos oVel i a g) = advanceEngine 7 g.
Proof.
  unfold orbitingParticleIn. cbv [advanceEngine Nat.iter nat_rect].
  destruct_draws. reflexivity.
Qed.

Lemma makeParticleIn_engine (n i j : Z) (a : Glm.vec3) (g : G) :
  snd (makeParticleIn oPos oVel n i j a g)
  = if j =? 0 then g else advanceEngine 7 g.
Proof.
  unfold makeParticleIn. destruct (j =? 0); [reflexivity|].
  rewrite <- (orbitingParticleIn_engine i a g).
  destruct (orbitingParticleIn oPos oVel i a g). reflexivity.
Qed.

Variables (attr : list Glm.vec3) (ppa : Z) (g0 : G).
Hypothesis ppa_pos : 0 < ppa.
Hypothesis no_wrap : Z.of_nat (List.length attr) * ppa < U32.modulus.

Let groups : nat := List.length attr.
Let perGroup : nat := Z.to_nat ppa.
Let total : nat := (groups * perGroup)%nat.

Lemma innerBodyIn_FilledFromIn (i j : nat) (st : list Particle * G) :
  (i < groups)%nat -> (j < perGroup)%nat ->
  FilledFromIn oPos oVel attr g0 total perGroup i j st ->
  FilledFromIn oPos oVel attr g0 total perGroup i (S j)
    (innerBodyIn oPos oVel attr ppa i j st).
Proof.
  intros Hi Hj (Hlen & Heng & Hfill). destruct st as [buf g]. cbn [fst snd] in *.
  unfold innerBodyIn.
  destruct (lookup_lt_is_Some_2 attr i Hi) as [a Ha]. rewrite Ha.
  pose proof (makeParticleIn_engine (ATTRACTORS_SIZE attr) (Z.of_nat i) (Z.of_nat j) a g)
    as Hsnd.
  destruct (makeParticleIn _ _ _ _ _ a g) as [p g'] eqn:Hmk. cbn [snd] in Hsnd.
  destruct (slot_nowrap attr ppa ppa_pos no_wrap i j Hi Hj) as [-> Hslot].
  fold perGroup in Hslot |- *. fold groups in Hslot. fold total in Hslot.
  split; [|split]; cbn [fst snd].
  - now rewrite length_insert.
  - rewrite Hsnd, Heng. destruct (Z.eqb_spec (Z.of_nat j) 0) as [E|E].
    + assert (j = 0%nat) as -> by lia. reflexivity.
    + rewrite <- advanceEngine_add. f_equal. unfold drawsBefore. lia.
  - intros i' j' a' Hj' Hbefore Ha'.
    destruct (decide ((i' * perGroup + j')%nat = (i * perGroup + j)%nat)) as [Heq|Hne].
    + assert (i' = i /\ j' = j) as [-> ->] by nia.
      assert (a' = a) as -> by congruence.
      rewrite list_lookup_insert_eq by lia.
      rewrite <- Heng, Hmk. reflexivity.
    + rewrite list_lookup_insert_ne by congruence.
      apply Hfill; [exact Hj'| |exact Ha'].
      destruct Hbefore as [Hlt|[-> Hlt]]; [now left|].
      right. split; [reflexivity|]. assert (j' <> j) by congruence. lia.
Qed.

Lemma innerLoopIn_FilledFromIn (i : nat) (st : list Particle * G) (j : nat) :
  (i < groups)%nat -> (j <= perGroup)%nat ->
  FilledFromIn oPos oVel attr g0 total perGroup i 0 st ->
  FilledFromIn oPos oVel attr g0 total perGroup i j
    (forLoop j (innerBodyIn oPos oVel attr ppa i) st).
Proof.
  intros Hi Hj H0. induction j as [|j IH]; [exact H0|].
  rewrite forLoop_S. apply innerBodyIn_FilledFromIn; [exact Hi|lia|apply IH; lia].
Qed.

Lemma FilledFromIn_next_group (i : nat) (st : list Particle * G) :
  FilledFromIn oPos oVel attr g0 total perGroup i perGroup st ->
  FilledFromIn oPos oVel attr g0 total perGroup (S i) 0 st.
Proof.
  intros (Hlen & Heng & Hfill). split; [exact Hlen|]. split.
  - rewrite Heng. f_equal. unfold drawsBefore.
    assert (0 < perGroup)%nat by (subst perGroup; lia). nia.
  - intros i' j' a Hj' [Hlt|[-> Hlt]] Ha; [|lia].
    apply Hfill; [exact Hj'| |exact Ha].
    destruct (decide (i' = i)) as [->|Hne]; [right; auto|left; lia].
Qed.

Lemma outerLoopIn_FilledFromIn (st : list Particle * G) (i : nat) :
  (i <= groups)%nat ->
  List.length (fst st) = total -> snd st = g0 ->
  FilledFromIn oPos oVel attr g0 total perGroup i 0
    (forLoop i (fun i => forLoop perGroup (innerBodyIn oPos oVel attr ppa i)) st).
Proof.
  intros Hi Hlen Hg. induction i as [|i IH].
  - split; [exact Hlen|]. split; [exact Hg|].
    intros i' j' a _ [Hlt|[_ Hlt]]; lia.
  - rewrite forLoop_S. apply FilledFromIn_next_group.
    apply innerLoopIn_FilledFromIn; [lia|lia|apply IH; lia].
Qed.

End InOrderFacts.

Lemma initLoopIn_FilledFromIn
    {G : Type} `{RandomEngine G} (oPos oVel : ArgOrder)
    (attr : list Glm.vec3) (ppa seed : Z) :
  0 < ppa ->
  Z.of_nat (List.length attr) * ppa < U32.modulus ->
  FilledFromIn oPos oVel attr (seedEngine seed)
    (List.length attr * Z.to_nat ppa) (Z.to_nat ppa) (List.length attr) 0
    (initLoopIn oPos oVel attr ppa seed).
Proof.
  intros Hpos Hwrap.
  unfold initLoopIn. rewrite (attractors_size attr ppa Hpos Hwrap), Nat2Z.id.
  apply (outerLoopIn_FilledFromIn oPos oVel attr ppa (seedEngine seed) Hpos Hwrap);
    [reflexivity| |reflexivity].
  cbn [fst]. rewrite length_replicate.
  apply (numParticles_total attr ppa Hpos Hwrap).
Qed.

(** With both argument lists evaluated left to right the loops are those
    of [initLoop], whose vector is [initParticles]. *)
Lemma forLoop_ext {S : Type} (n : nat) (f f' : nat -> S -> S) (s : S) :
  (forall i s, f i s = f' i s) -> forLoop n f s = forLoop n f' s.
Proof.
  intros Hext. induction n as [|n IH]; [reflexivity|].
  now rewrite !forLoop_S, IH, Hext.
Qed.

Lemma initLoopIn_left_to_right
    {G : Type} `{RandomEngine G} (attr : list Glm.vec3) (ppa seed : Z) :
  initLoopIn Order123 Order123 attr ppa seed = initLoop attr ppa seed /\
  fst (initLoopIn Order123 Order123 attr ppa seed) = initParticles attr ppa seed.
Proof.
  assert (Horb : forall i a g,
             orbitingParticleIn Order123 Order123 i a g = orbitingParticle i a g).
  { intros i a g. unfold orbitingParticleIn, orbitingParticle, rndVec3, arrange.
    repeat match goal with
           | |- context [let '(_, _) := rndDist ?g in _] =>
               destruct (rndDist g) as [? ?]
           end.
    reflexivity. }
  assert (Hbody : forall i j st,
             innerBodyIn Order123 Order123 attr ppa i j st = innerBody attr ppa i j st).
  { intros i j [buf g]. unfold innerBodyIn, innerBody, makeParticleIn, makeParticle.
    destruct (attr !! i); [|reflexivity]. now rewrite Horb. }
  assert (Hloop : initLoopIn Order123 Order123 attr ppa seed = initLoop attr ppa seed).
  { unfold initLoopIn, initLoop. apply forLoop_ext. intros i st.
    apply forLoop_ext. intros j st'. apply Hbody. }
  split; [exact Hloop|]. now rewrite Hloop.
Qed.

(** X1. For any attractor list and any positive number of particles per
    attractor whose product fits 32 bits, and in whichever order the
    compiler evaluates the arguments of the two [glm::vec3] constructors:
    the entry of particle [j] of group [i] is the particle made for that
    place from the engine advanced by seven draws for every earlier
    particle that is not first in its group; and when the loops end the
    engine has made [7 * attractors.size() * (perGroup - 1)] draws. *)
Theorem initializer_entries_and_draws
    {G : Type} `{RandomEngine G} (oPos oVel : ArgOrder)
    (attr : list Glm.vec3) (ppa seed : Z) (i j : nat) (a : Glm.vec3) :
  0 < ppa ->
  Z.of_nat (List.length attr) * ppa < U32.modulus ->
  attr !! i = Some a ->
  (j < Z.to_nat ppa)%nat ->
  fst (initLoopIn oPos oVel attr ppa seed) !! (i * Z.to_nat ppa + j)%nat
  = Some (fst (makeParticleIn oPos oVel
                 (Z.of_nat (List.length attr)) (Z.of_nat i) (Z.of_nat j) a
                 (advanceEngine (drawsBefore (Z.to_nat ppa) i j) (seedEngine seed))))
  /\ snd (initLoopIn oPos oVel attr ppa seed)
     = advanceEngine (7 * (List.length attr * (Z.to_nat ppa - 1))) (seedEngine seed).
Proof.
  intros Hpos Hwrap Ha Hj.
  destruct (initLoopIn_FilledFromIn oPos oVel attr ppa seed Hpos Hwrap)
    as (_ & Heng & Hfill).
  split.
  - rewrite <- (attractors_size attr ppa Hpos Hwrap).
    apply (Hfill i j a Hj); [|exact Ha].
    left. eapply lookup_lt_Some, Ha.
  - rewrite Heng. f_equal. unfold drawsBefore. lia.
Qed.

Lemma initializer_entries_and_draws_witness :
  fst (@initLoopIn unit (constEngine F32.one) Order321 Order321
         attractors (4 * 1024) 0)
    !! (2 * Z.to_nat (4 * 1024) + 7)%nat
  = Some (fst (@makeParticleIn unit (constEngine F32.one) Order321 Order321 6 2 7
                 (Glm.Vec3 F32.zero F32.zero (F32.of_Z 5))
                 (@advanceEngine unit (constEngine F32.one)
                    (drawsBefore (Z.to_nat (4 * 1024)) 2 7) tt)))
  /\ snd (@initLoopIn unit (constEngine F32.one) Order321 Order321
            attractors (4 * 1024) 0)
     = @advanceEngine unit (constEngine F32.one)
         (7 * (6 * (Z.to_nat (4 * 1024) - 1))) tt.
Proof.
  exact (@initializer_entries_and_draws unit (constEngine F32.one)
           Order321 Order321 attractors (4 * 1024) 0 2%nat 7%nat
           (Glm.Vec3 F32.zero F32.zero (F32.of_Z 5))
           ltac:(reflexivity) ltac:(reflexivity) ltac:(reflexivity)
           ltac:(apply Nat.ltb_lt; vm_compute; reflexivity)).
Defined.

(** The sample run of the g++ build: attractor [(5, 0, 0)] and the draws
    1, 2, 3 for the position give the position [(7.25, 1.5, 0.75)] when
    the arguments are evaluated right to left, and [(5.75, 1.5, 2.25)]
    when left to right. *)
Lemma orbitingParticleIn_sample_orders :
  let a := Glm.Vec3 (F32.of_Z 5) F32.zero F32.zero in
  let draws := map F32.of_Z [1; 2; 3; 0; 0; 0; 1] in
  let position (o : ArgOrder) :=
    Glm.xyz (pos (fst (@orbitingParticleIn (list F32.t) (replayEngine []) o o 0 a draws))) in
  (Glm.x3 (position Order321), Glm.z3 (position Order321))
  = (F32.lit 29 4, F32.lit 3 4) /\
  (Glm.x3 (position Order123), Glm.z3 (position Order123))
  = (F32.lit 23 4, F32.lit 9 4).
Proof. split; vm_compute; reflexivity. Qed.

(** X2. For any attractor list and any positive number of particles per
    attractor whose product fits 32 bits: the vector has
    [attractors.size() * perGroup] entries, which is [numParticles]; the
    first entry of group [i] sits at 1.5 times the attractor with mass
    90000 and zero velocity; and all particles of a group carry the same
    gradient index, [(float)i / attractors.size()]. *)
Theorem initializer_groups
    {G : Type} `{RandomEngine G} (attr : list Glm.vec3) (ppa seed : Z)
    (i : nat) (a : Glm.vec3) :
  0 < ppa ->
  Z.of_nat (List.length attr) * ppa < U32.modulus ->
  attr !! i = Some a ->
  let buf := initParticles attr ppa seed in
  let grad := gradientOf (Z.of_nat i) (Z.of_nat (List.length attr)) in
  Z.of_nat (List.length buf) = Z.of_nat (List.length attr) * ppa /\
  numParticlesOf attr ppa = Z.of_nat (List.length attr) * ppa /\
  buf !! (i * Z.to_nat ppa)%nat
  = Some {| pos := Glm.vec4_of (Glm.vec3_scale a (F32.lit 3 2)) (F32.of_Z 90000);
            vel := Glm.Vec4 F32.zero F32.zero F32.zero grad |} /\
  forall j : nat,
    (j < Z.to_nat ppa)%nat ->
    exists p, buf !! (i * Z.to_nat ppa + j)%nat = Some p /\ gradientIndex p = grad.
Proof.
  intros Hpos Hwrap Ha buf grad.
  destruct (initLoop_FilledFrom attr ppa seed Hpos Hwrap) as (Hlen & _ & Hfill).
  assert (Hi : (i < List.length attr)%nat) by (eapply lookup_lt_Some, Ha).
  pose proof (attractors_size attr ppa Hpos Hwrap) as Hsize.
  split; [|split; [|split]].
  - subst buf. change (initParticles attr ppa seed) with (fst (initLoop attr ppa seed)).
    rewrite Hlen. lia.
  - apply (numParticles_nowrap attr ppa Hpos Hwrap).
  - subst buf. change (initParticles attr ppa seed) with (fst (initLoop attr ppa seed)).
    rewrite <- (Nat.add_0_r (i * Z.to_nat ppa)).
    rewrite (Hfill i 0%nat a ltac:(lia) (or_introl Hi) Ha).
    change (Z.of_nat 0) with 0. rewrite makeParticle_center, Hsize. reflexivity.
  - intros j Hj. eexists. split.
    + subst buf. change (initParticles attr ppa seed) with (fst (initLoop attr ppa seed)).
      exact (Hfill i j a Hj (or_introl Hi) Ha).
    + rewrite makeParticle_gradient, Hsize. reflexivity.
Qed.

Lemma initializer_groups_witness :
  let buf := @initParticles unit (constEngine F32.one) attractors (3 * 1024) 0 in
  let grad := gradientOf 4 6 in
  Z.of_nat (List.length buf) = 6 * (3 * 1024) /\
  numParticlesOf attractors (3 * 1024) = 6 * (3 * 1024) /\
  buf !! (4 * Z.to_nat (3 * 1024))%nat
  = Some {| pos := Glm.vec4_of
                     (Glm.vec3_scale (Glm.Vec3 F32.zero (F32.of_Z 4) F32.zero) (F32.lit 3 2))
                     (F32.of_Z 90000);
            vel := Glm.Vec4 F32.zero F32.zero F32.zero grad |} /\
  forall j : nat,
    (j < Z.to_nat (3 * 1024))%nat ->
    exists p, buf !! (4 * Z.to_nat (3 * 1024) + j)%nat = Some p /\ gradientIndex p = grad.
Proof.
  exact (@initializer_groups unit (constEngine F32.one) attractors (3 * 1024) 0
           4%nat (Glm.Vec3 F32.zero (F32.of_Z 4) F32.zero)
           ltac:(reflexivity) ltac:(reflexivity) ltac:(reflexivity)).
Defined.

(** ** Empty particle systems *)

Lemma forLoop_skip {S : Type} (n : nat) (s : S) :
  forLoop n (fun _ s => s) s = s.
Proof.
  induction n as [|n IH]; [reflexivity|]. now rewrite forLoop_S.
Qed.

(** X3. Without attractors, or with zero particles per attractor, the
    loops store nothing and draw nothing: the particle vector is empty,
    [numParticles] is 0, and the engine is still the freshly seeded one. *)
Theorem initializer_empty
    {G : Type} `{RandomEngine G} (attr : list Glm.vec3) (ppa seed : Z) :
  attr = [] \/ ppa = 0 ->
  numParticlesOf attr ppa = 0 /\
  initLoop attr ppa seed = ([], seedEngine seed) /\
  initParticles attr ppa seed = [].
Proof.
  intros Hempty.
  assert (Hnum : numParticlesOf attr ppa = 0).
  { unfold numParticlesOf, U32.mul.
    destruct Hempty as [-> | ->]; [reflexivity|].
    now rewrite Z.mul_0_r. }
  assert (Hloop : initLoop attr ppa seed = ([], seedEngine seed)).
  { unfold initLoop. rewrite Hnum. cbn [Z.to_nat replicate].
    destruct Hempty as [-> | ->]; [reflexivity|].
    cbn [Z.to_nat]. unfold forLoop at 2. cbn [seq fold_left].
    apply forLoop_skip. }
  split; [exact Hnum|]. split; [exact Hloop|].
  change (initParticles attr ppa seed) with (fst (initLoop attr ppa seed)).
  now rewrite Hloop.
Qed.

Lemma initializer_empty_witness :
  numParticlesOf attractors 0 = 0 /\
  @initLoop unit (constEngine F32.one) attractors 0 5 = ([], tt) /\
  @initParticles unit (constEngine F32.one) attractors 0 5 = [].
Proof.
  exact (@initializer_empty unit (constEngine F32.one) attractors 0 5
           (or_intror eq_refl)).
Defined.

(** ** Which particles a dispatch reaches *)

(** X4. For any particle count, both dispatches of the compute command
    buffer start [numParticles / 256] workgroups, whose threads are
    exactly the indices below [256 * (numParticles / 256)]: no thread
    indexes past the end of the buffer, the last [numParticles mod 256]
    particles are reached by no thread, and with fewer than 256 particles
    no thread runs at all. *)
Theorem dispatch_reaches_whole_workgroups_only (g c n : Z) :
  0 <= n ->
  let groups := n / 256 in
  Vk.dispatches (buildComputeCommandBuffer g c n) = [groups; groups] /\
  globalInvocations groups
  = map Z.of_nat (seq 0 (Z.to_nat (n - n mod 256))) /\
  (forall t, In t (globalInvocations groups) <-> 0 <= t < n - n mod 256) /\
  (forall t, In t (globalInvocations groups) -> t < n) /\
  (forall t, n - n mod 256 <= t < n -> ~ In t (globalInvocations groups)) /\
  (n < 256 -> globalInvocations groups = []).
Proof.
  intros Hn groups.
  pose proof (Z.div_mod n 256 ltac:(lia)) as Hdm.
  pose proof (Z.mod_pos_bound n 256 ltac:(lia)) as Hb.
  assert (Hg : 0 <= groups) by (apply Z.div_pos; lia).
  assert (Hinv : globalInvocations groups
                 = map Z.of_nat (seq 0 (Z.to_nat (n - n mod 256)))).
  { rewrite globalInvocations_seq by exact Hg.
    do 3 f_equal. unfold WORKGROUP_SIZE. subst groups. lia. }
  assert (Hin : forall t, In t (globalInvocations groups) <-> 0 <= t < n - n mod 256).
  { intros t. rewrite Hinv, in_map_iff. split.
    - intros [k [<- Hk]]. apply in_seq in Hk. lia.
    - intros Ht. exists (Z.to_nat t). split; [lia|]. apply in_seq. lia. }
  split; [apply dispatches_compute|].
  split; [exact Hinv|]. split; [exact Hin|].
  split; [intros t Ht; apply Hin in Ht; lia|].
  split; [intros t Ht Hc; apply Hin in Hc; lia|].
  intros Hsmall. rewrite Hinv.
  rewrite (Z.mod_small n 256) by lia.
  now rewrite Z.sub_diag.
Qed.

Lemma dispatch_reaches_whole_workgroups_only_witness :
  let groups := 1000 / 256 in
  Vk.dispatches (buildComputeCommandBuffer 0 1 1000) = [groups; groups] /\
  globalInvocations groups
  = map Z.of_nat (seq 0 (Z.to_nat (1000 - 1000 mod 256))) /\
  (forall t, In t (globalInvocations groups) <-> 0 <= t < 1000 - 1000 mod 256) /\
  (forall t, In t (globalInvocations groups) -> t < 1000) /\
  (forall t, 1000 - 1000 mod 256 <= t < 1000 -> ~ In t (globalInvocations groups)) /\
  (1000 < 256 -> globalInvocations groups = []).
Proof.
  exact (dispatch_reaches_whole_workgroups_only 0 1 1000 ltac:(lia)).
Defined.

(** ** The shared-memory tile *)

(** X5. Whatever 32-bit shared-memory limit the device reports, the tile
    size handed to the first compute pass is at most 1024 elements, fits
    the limit when each element takes [sizeof(glm::vec4)] bytes, is the
    largest such count, and reaches 1024 exactly from a limit of 16384
    bytes on. *)
Theorem sharedDataSize_fits (limit : Z) :
  U32.in_range limit ->
  let s := sharedDataSize limit in
  0 <= s <= 1024 /\
  s * SIZEOF_VEC4 <= limit /\
  (s < 1024 -> limit < (s + 1) * SIZEOF_VEC4) /\
  (s = 1024 <-> 16384 <= limit).
Proof.
  intros Hl s. unfold U32.in_range, U32.modulus in Hl.
  pose proof (Z.div_mod limit 16 ltac:(lia)) as Hdm.
  pose proof (Z.mod_pos_bound limit 16 ltac:(lia)) as Hb.
  assert (Hq : 0 <= limit / 16 <= limit).
  { split; [apply Z.div_pos; lia|]. lia. }
  assert (Hs : s = Z.min 1024 (limit / 16)).
  { subst s. unfold sharedDataSize, SIZEOF_VEC4.
    rewrite (wrap_small 1024) by (unfold U32.in_range, U32.modulus; lia).
    rewrite (wrap_small (limit / 16)) by (unfold U32.in_range, U32.modulus; lia).
    reflexivity. }
  unfold SIZEOF_VEC4. rewrite Hs. lia.
Qed.

Lemma sharedDataSize_fits_witness :
  let s := sharedDataSize 5000 in
  0 <= s <= 1024 /\
  s * SIZEOF_VEC4 <= 5000 /\
  (s < 1024 -> 5000 < (s + 1) * SIZEOF_VEC4) /\
  (s = 1024 <-> 16384 <= 5000).
Proof.
  exact (sharedDataSize_fits 5000 ltac:(unfold U32.in_range, U32.modulus; lia)).
Defined.

(** ** Ownership of the storage buffer along the executed commands *)

Section OwnershipFacts.
Variables (g c n : Z).

Lemma families_cases :
  (g =? c) = true /\ (c =? g) = true /\ g = c
  \/ (g =? c) = false /\ (c =? g) = false.
Proof.
  destruct (Z.eqb_spec g c) as [->|Hne].
  - left. now rewrite Z.eqb_refl.
  - right. split; [reflexivity|]. apply Z.eqb_neq. congruence.
Qed.

Ltac owner_cases :=
  destruct families_cases as [(E1 & E2 & ->)|(E1 & E2)];
  cbv -[Z.eqb Z.div]; rewrite ?Z.eqb_refl, ?E1, ?E2; cbv -[Z.eqb Z.div];
  rewrite ?Z.eqb_refl, ?E1, ?E2; reflexivity.

Lemma ownerRun_upload :
  ownerRun g (OwnedBy g) (uploadCommandBuffer g c)
  = Some (ownershipAt g c WriterNext).
Proof. owner_cases. Qed.

Lemma ownerRun_compute :
  ownerRun c (ownershipAt g c WriterNext) (buildComputeCommandBuffer g c n)
  = Some (ownershipAt g c Writing).
Proof. owner_cases. Qed.

Lemma ownerRun_draw :
  ownerRun g (ownershipAt g c ReaderNext) (drawCommandBuffer g c n)
  = Some (ownershipAt g c Reading).
Proof. owner_cases. Qed.

Lemma ownerRunAll_started (tr : list Event) :
  List.Forall frameEvent tr ->
  forall p0 p,
    phaseAfter p0 (bufferWindows tr) = Some p ->
    ownerRunAll (ownershipAt g c p0) (startedStream g c n tr)
    = Some (ownershipAt g c p).
Proof.
  induction 1 as [|e tr He _ IH]; intros p0 p Hp.
  - cbn in Hp. injection Hp as <-. reflexivity.
  - change (bufferWindows (e :: tr)) with (windowsOf e ++ bufferWindows tr) in Hp.
    rewrite phaseAfter_app in Hp.
    destruct e as [s|s]; destruct He as [-> | ->]; cbn in Hp;
      destruct p0; cbn in Hp; try discriminate Hp;
      cbn [startedStream flat_map commandBuffers computeSubmitInfo
             graphicsSubmitInfo map app commandsOf ownerRunAll];
      fold (startedStream g c n tr).
    + rewrite ownerRun_compute. apply IH, Hp.
    + rewrite ownerRun_draw. apply IH, Hp.
    + apply (IH ReaderNext), Hp.
    + apply (IH WriterNext), Hp.
Qed.

End OwnershipFacts.

Lemma frameTrace_step (shared : bool) (m m' : Machine) (a : Action) :
  SyncInvariant m ->
  List.Forall frameEvent (trace m) ->
  step shared m a = Some m' ->
  List.Forall frameEvent (trace m').
Proof.
  intros Hinv Htr Hstep. destruct a as [|q|k| |]; cbn in Hstep.
  - destruct (hostRest m) as [|op rest]; inv_some; [exact Htr|].
    destruct op; cbn; try exact Htr. destruct q, shared; exact Htr.
  - assert (Hstart : forall s restG restC,
               frameBatch s -> startBatch s restG restC m = Some m' ->
               List.Forall frameEvent (trace m')).
    { intros s restG restC Hs Hst. unfold startBatch in Hst.
      destruct (forallb _ _); [|discriminate]. inv_some. cbn.
      apply List.Forall_app. split; [exact Htr|]. now constructor. }
    destruct q.
    + destruct (pendingGraphic m) as [|s rest] eqn:Hpend; [discriminate|].
      pose proof (inv_pendingGraphic m Hinv) as Hg. rewrite Hpend in Hg.
      apply List.Forall_cons_iff in Hg. eapply Hstart; [apply Hg|exact Hstep].
    + destruct (pendingCompute m) as [|s rest] eqn:Hpend; [discriminate|].
      pose proof (inv_pendingCompute m Hinv) as Hc. rewrite Hpend in Hc.
      apply List.Forall_cons_iff in Hc. eapply Hstart; [apply Hc|exact Hstep].
  - destruct (running m !! k) as [s|] eqn:Hk; [|discriminate]. inv_some. cbn.
    apply List.Forall_app. split; [exact Htr|]. constructor; [|constructor].
    destruct (inv_phase m Hinv) as [p [_ Hp]].
    destruct p; cbn in Hp; destruct Hp as (_ & _ & Hrun); rewrite Hrun in Hk;
      destruct k; cbn in Hk; try discriminate Hk; inv_some;
      unfold frameEvent, frameBatch; auto.
  - inv_some. exact Htr.
  - destruct (sRenderComplete (sems m)); [|discriminate]. inv_some. exact Htr.
Qed.

Lemma frameTrace_run (shared : bool) (acts : list Action) (m : Machine) :
  run shared acts preparedMachine = Some m ->
  SyncInvariant m /\ List.Forall frameEvent (trace m).
Proof.
  apply (run_invariant
           (fun m => SyncInvariant m /\ List.Forall frameEvent (trace m)) shared).
  - intros m0 m1 a [Hinv Htr] Hstep. split.
    + eapply syncInvariant_step; eauto.
    + eapply frameTrace_step; eauto.
  - split; [exact syncInvariant_prepared|constructor].
Qed.

(** X6. However the host, the queues and the presentation engine
    interleave, the commands executed on the storage buffer (the upload,
    then the command buffers of the batches in the order they start)
    respect queue-family ownership: every copy, dispatch and draw is
    executed by the family that owns the buffer, every release barrier is
    recorded for the owning family, and the next ownership barrier is the
    acquire with the same pair of families, recorded for the destination
    family.  With one family for both roles the buffer never changes
    owner. *)
Theorem executed_commands_respect_ownership
    (shared : bool) (acts : list Action) (m : Machine) (g c n : Z) :
  run shared acts preparedMachine = Some m ->
  exists p,
    phaseAfter WriterNext (bufferWindows (trace m)) = Some p /\
    ownerRunAll (OwnedBy g) (executedStream g c n (trace m))
    = Some (ownershipAt g c p).
Proof.
  intros Hrun. destruct (frameTrace_run shared acts m Hrun) as [Hinv Htr].
  destruct (inv_phase m Hinv) as [p [Hp _]]. exists p. split; [exact Hp|].
  unfold executedStream. cbn [ownerRunAll]. rewrite ownerRun_upload.
  apply ownerRunAll_started; assumption.
Qed.

Lemma executed_commands_respect_ownership_witness :
  exists m p,
    run false oneFrameSchedule preparedMachine = Some m /\
    phaseAfter WriterNext (bufferWindows (trace m)) = Some p /\
    ownerRunAll (OwnedBy 0) (executedStream 0 2 24576 (trace m))
    = Some (ownershipAt 0 2 p).
Proof.
  eexists.
  destruct (executed_commands_respect_ownership false oneFrameSchedule _ 0 2 24576
              ltac:(vm_compute; reflexivity)) as [p Hp].
  exists p. split; [vm_compute; reflexivity|exact Hp].
Defined.

(** The checker is not vacuous: with two families, a draw command buffer
    executed right after the upload, before any compute batch, is refused,
    and so are two compute command buffers in a row. *)
Lemma ownership_checker_refuses_out_of_order (n : Z) :
  ownerRunAll (OwnedBy 0)
    [(0, uploadCommandBuffer 0 2); (0, drawCommandBuffer 0 2 n)] = None /\
  ownerRunAll (OwnedBy 0)
    [(0, uploadCommandBuffer 0 2);
     (2, buildComputeCommandBuffer 0 2 n);
     (2, buildComputeCommandBuffer 0 2 n)] = None.
Proof. split; reflexivity. Qed.

(** ** Scope and contents of the recorded command buffers *)

(** X7. Whatever the queue families and the particle count,
    [buildCommandBuffersForMainRendering] records [count] command buffers,
    each of which begins exactly one render pass and ends it, records its
    single draw inside, [numParticles] vertices in one instance, and its
    ownership barriers outside; the compute and the upload command buffers
    record no render pass, no draw and no overlay, and keep their
    dispatches, copy and barriers outside of any render pass. *)
Theorem recorded_commands_well_scoped (g c n : Z) (count : nat) :
  List.length (buildCommandBuffersForMainRendering g c n count) = count /\
  List.Forall (fun cb => wellScoped cb = true /\
                         renderPassesBegun cb = 1%nat /\
                         renderPassesEnded cb = 1%nat /\
                         draws cb = [(n, 1)])
              (buildCommandBuffersForMainRendering g c n count) /\
  (wellScoped (buildComputeCommandBuffer g c n) = true /\
   renderPassCommands (buildComputeCommandBuffer g c n) = []) /\
  (wellScoped (uploadCommandBuffer g c) = true /\
   renderPassCommands (uploadCommandBuffer g c) = []).
Proof.
  unfold buildCommandBuffersForMainRendering.
  split; [now rewrite length_map, length_seq|].
  split.
  - apply List.Forall_forall. intros cb Hin. apply in_map_iff in Hin.
    destruct Hin as [k [<- _]].
    unfold drawCommandBuffer. destruct (familiesDiffer g c); repeat split.
  - unfold buildComputeCommandBuffer, uploadCommandBuffer.
    destruct (familiesDiffer g c); repeat split.
Qed.

(** The scope checker refuses a barrier recorded inside a render pass. *)
Lemma scope_checker_refuses_barrier_inside (g c : Z) :
  wellScoped [Vk.CmdBeginRenderPass; graphicsRelease g c; Vk.CmdEndRenderPass]
  = false.
Proof. reflexivity. Qed.

(** X8. Whatever the queue families and the particle count, the compute
    command buffer dispatches the Calculate pass and then the Integrate
    pass, each with [numParticles / 256] workgroups and each with its
    compute pipeline and the descriptor set bound, and the writes of the
    first pass are made visible to the second by a compute-to-compute
    write-to-read barrier before the second dispatch. *)
Theorem compute_passes_bound_and_ordered (g c n : Z) :
  exists r,
    computeRun freshRecording (buildComputeCommandBuffer g c n) = Some r /\
    dispatched r = [(Vk.PipelineCalculate, n / 256); (Vk.PipelineIntegrate, n / 256)] /\
    boundPipeline r = Some Vk.PipelineIntegrate /\
    descriptorsBound r = true.
Proof.
  unfold buildComputeCommandBuffer.
  destruct (familiesDiffer g c); eexists; repeat split; reflexivity.
Qed.

(** The hazard checker refuses the two dispatches without the barrier
    between them, and a dispatch with nothing bound. *)
Lemma hazard_checker_refuses (n : Z) :
  computeRun freshRecording
    [ Vk.CmdBindPipeline Vk.PipelineCalculate; Vk.CmdBindDescriptorSets;
      Vk.CmdDispatch n 1 1;
      Vk.CmdBindPipeline Vk.PipelineIntegrate; Vk.CmdDispatch n 1 1 ] = None /\
  computeRun freshRecording [Vk.CmdDispatch n 1 1] = None.
Proof. split; reflexivity. Qed.

(** ** The compute uniform block across frames *)

Lemma updateFrames_keeps (frames : list (bool * F32.t)) (u : ComputeUniforms) :
  let u' := updateFrames frames u in
  particleCount (uniformData u') = particleCount (uniformData u) /\
  gravity (uniformData u') = gravity (uniformData u) /\
  power (uniformData u') = power (uniformData u) /\
  soften (uniformData u') = soften (uniformData u).
Proof.
  revert u. induction frames as [|f frames IH]; intros u; [cbn; auto|].
  cbn [updateFrames fold_left].
  destruct (IH (updateComputeUniformBuffers (fst f) (snd f) u)) as (Hc & Hg & Hp & Hs).
  unfold updateFrames in *. cbv zeta. rewrite Hc, Hg, Hp, Hs. cbn. auto.
Qed.

Lemma toInt32_small (x : Z) : 0 <= x < 2 ^ 31 -> toInt32 x = x.
Proof.
  intros Hx. unfold toInt32.
  rewrite wrap_small by (unfold U32.in_range, U32.modulus; lia).
  destruct (Z.ltb_spec x (2 ^ 31)); [reflexivity|lia].
Qed.

(** X9. After [prepareStorageBuffers] has stored the particle count,
    every [updateComputeUniformBuffers], after any number of earlier
    frames, leaves in the mapped uniform buffer the stored particle count,
    the default gravity 0.002, power 0.75 and softening 0.05, and a time
    step that is exactly zero when paused and [frameTimer * 0.05]
    otherwise.  The particle count the shader sees is [numParticles]
    itself below [2^31]; from [2^31] on the conversion to [int32_t] makes
    it negative. *)
Theorem uniform_block_after_update
    (numParticles : Z) (frames : list (bool * F32.t))
    (paused : bool) (frameTimer : F32.t) :
  U32.in_range numParticles ->
  let u := updateComputeUniformBuffers paused frameTimer
             (updateFrames frames (setParticleCount numParticles freshUniforms)) in
  mappedData u
  = Some {| deltaT := if paused then F32.zero
                      else F32.mul frameTimer (F32.lit 5 100);
            particleCount := toInt32 numParticles;
            gravity := F32.lit 2 1000;
            power := F32.lit 3 4;
            soften := F32.lit 5 100 |} /\
  (numParticles < 2 ^ 31 -> toInt32 numParticles = numParticles) /\
  (2 ^ 31 <= numParticles ->
   toInt32 numParticles = numParticles - 2 ^ 32 /\ toInt32 numParticles < 0).
Proof.
  intros Hn u. unfold U32.in_range, U32.modulus in Hn. split; [|split].
  - subst u.
    destruct (updateFrames_keeps frames (setParticleCount numParticles freshUniforms))
      as (Hc & Hg & Hp & Hs).
    unfold updateComputeUniformBuffers. cbn [mappedData].
    rewrite Hc, Hg, Hp, Hs. reflexivity.
  - intros Hlt. apply toInt32_small. lia.
  - intros Hge. unfold toInt32.
    rewrite wrap_small by (unfold U32.in_range, U32.modulus; lia).
    destruct (Z.ltb_spec numParticles (2 ^ 31)); [lia|].
    unfold U32.modulus. lia.
Qed.

Lemma uniform_block_after_update_witness :
  let u := updateComputeUniformBuffers true (F32.lit 16 1000)
             (updateFrames [(false, F32.lit 16 1000); (false, F32.lit 17 1000)]
                (setParticleCount 24576 freshUniforms)) in
  mappedData u
  = Some {| deltaT := F32.zero;
            particleCount := toInt32 24576;
            gravity := F32.lit 2 1000;
            power := F32.lit 3 4;
            soften := F32.lit 5 100 |} /\
  (24576 < 2 ^ 31 -> toInt32 24576 = 24576) /\
  (2 ^ 31 <= 24576 -> toInt32 24576 = 24576 - 2 ^ 32 /\ toInt32 24576 < 0).
Proof.
  exact (uniform_block_after_update 24576
           [(false, F32.lit 16 1000); (false, F32.lit 17 1000)]
           true (F32.lit 16 1000)
           ltac:(unfold U32.in_range, U32.modulus; lia)).
Defined.

(** ** The chain semaphores are binary *)

(** X10. In every execution, [graphics.semaphore] and
    [compute.semaphore] are never signaled together, and while any batch
    is running neither of them is signaled, so a completing batch never
    signals one of them a second time. *)
Theorem chain_semaphores_never_signaled_twice
    (shared : bool) (acts : list Action) (m : Machine) :
  run shared acts preparedMachine = Some m ->
  (sGraphics (sems m) && sCompute (sems m) = false) /\
  (forall (k : nat) (s : SubmitInfo),
      running m !! k = Some s ->
      isSignaled (sems m) GraphicsSemaphore = false /\
      isSignaled (sems m) ComputeSemaphore = false).
Proof.
  intros Hrun.
  destruct (syncInvariant_run shared acts m Hrun) as [_ _ _ [p [_ Hp]]].
  destruct p; cbn in Hp; destruct Hp as (Hg & Hc & Hr); rewrite Hg, Hc, Hr;
    (split; [reflexivity|]);
    intros k s Hk; cbn; rewrite ?Hg, ?Hc; auto;
    destruct k; discriminate Hk.
Qed.

Lemma chain_semaphores_never_signaled_twice_witness :
  exists m,
    run false oneFrameSchedule preparedMachine = Some m /\
    running m = [computeSubmitInfo] /\
    (sGraphics (sems m) && sCompute (sems m) = false) /\
    (forall (k : nat) (s : SubmitInfo),
        running m !! k = Some s ->
        isSignaled (sems m) GraphicsSemaphore = false /\
        isSignaled (sems m) ComputeSemaphore = false).
Proof.
  eexists. split; [vm_compute; reflexivity|]. split; [reflexivity|].
  apply (chain_semaphores_never_signaled_twice false oneFrameSchedule).
  vm_compute; reflexivity.
Defined.

(** ** Frames complete *)

Lemma run_app (shared : bool) (acts1 acts2 : list Action) (m : Machine) :
  run shared (acts1 ++ acts2) m
  = match run shared acts1 m with
    | Some m' => run shared acts2 m'
    | None => None
    end.
Proof.
  revert m. induction acts1 as [|a acts1 IH]; intros m; cbn; [reflexivity|].
  destruct (step shared m a); [apply IH|reflexivity].
Qed.

Lemma frameSchedule_runs (shared : bool) (m : Machine) :
  Idle m ->
  exists m',
    run shared (frameSchedule shared) m = Some m' /\
    Idle m' /\
    bufferWindows (trace m') = bufferWindows (trace m) ++ frameWindows /\
    hostLog m' = hostLog m ++ render true.
Proof.
  intros (Hs & Hg & Hc & Hr & Hh).
  destruct m as [sm pg pc rn tr hl hr]. cbn in Hs, Hg, Hc, Hr, Hh. subst.
  destruct shared; eexists; (split; [cbn; reflexivity|]);
    (split; [repeat split|]); cbn [trace hostLog];
    rewrite ?bufferWindows_snoc, <- ?app_assoc; split; reflexivity.
Qed.

Lemma framesSchedule_runs (shared : bool) (k : nat) (m : Machine) :
  Idle m ->
  exists m',
    run shared (framesSchedule shared k) m = Some m' /\
    Idle m' /\
    bufferWindows (trace m')
    = bufferWindows (trace m) ++ concat (replicate k frameWindows) /\
    hostLog m' = hostLog m ++ concat (replicate k (render true)).
Proof.
  revert m. induction k as [|k IH]; intros m Hidle.
  - exists m. cbn. rewrite !app_nil_r. auto.
  - destruct (frameSchedule_runs shared m Hidle) as (m1 & Hrun1 & Hidle1 & Hw1 & Hl1).
    destruct (IH m1 Hidle1) as (m2 & Hrun2 & Hidle2 & Hw2 & Hl2).
    exists m2. split; [|split; [exact Hidle2|split]].
    + unfold framesSchedule. cbn [replicate concat].
      rewrite run_app, Hrun1. exact Hrun2.
    + rewrite Hw2, Hw1. cbn [replicate concat]. now rewrite app_assoc.
    + rewrite Hl2, Hl1. cbn [replicate concat]. now rewrite app_assoc.
Qed.

(** X11. The protocol does not block itself: for every number of frames,
    with separate queues or a shared one, there is an execution in which
    that many frames run to completion, one write window and one read
    window each, after which nothing is pending or running, the host has
    performed that many whole [render] sequences, and the semaphores are
    back where [prepareForRendering] left them, ready for the next
    frame. *)
Theorem frames_run_to_completion (shared : bool) (k : nat) :
  exists m,
    run shared (framesSchedule shared k) preparedMachine = Some m /\
    Idle m /\
    bufferWindows (trace m) = concat (replicate k frameWindows) /\
    hostLog m = concat (replicate k (render true)).
Proof.
  apply (framesSchedule_runs shared k preparedMachine).
  repeat split.
Qed.

(** ** No deadlock *)

Lemma drainInvariant_prepared (shared : bool) : DrainInvariant shared preparedMachine.
Proof.
  exists WriterNext. split; [reflexivity|]. split; [cbn; auto|].
  exists 0%nat. destruct shared; cbn; auto.
Qed.

Lemma frames_cons (j : nat) (s : SubmitInfo) (l : list SubmitInfo) :
  s :: l = concat (replicate j [computeSubmitInfo; graphicsSubmitInfo]) ->
  exists j', j = S j' /\ s = computeSubmitInfo /\
             l = graphicsSubmitInfo
                 :: concat (replicate j' [computeSubmitInfo; graphicsSubmitInfo]).
Proof.
  destruct j as [|j']; cbn; intros Heq; [discriminate|].
  injection Heq as -> ->. eauto.
Qed.

Lemma replicate_cons_inv {A : Type} (j : nat) (x s : A) (l : list A) :
  s :: l = replicate j x -> exists j', j = S j' /\ s = x /\ l = replicate j' x.
Proof.
  destruct j as [|j']; cbn; intros Heq; [discriminate|].
  injection Heq as -> ->. eauto.
Qed.

Lemma drainInvariant_host (shared : bool) (m m' : Machine) :
  DrainInvariant shared m -> step shared m Host = Some m' ->
  DrainInvariant shared m'.
Proof.
  intros (p & Hp & Hph & (j & Hq)) Hstep.
  destruct m as [sm pg pc rn tr hl hr]. cbn in Hp, Hph, Hq, Hstep.
  destruct hr as [|op rest]; inv_some.
  - exists p. split; [exact Hp|]. split; [destruct p; exact Hph|].
    exists (S j). destruct shared; cbn in Hq; destruct Hq as [Hc Hg];
      rewrite app_nil_r in *.
    + rewrite concat_replicate_snoc, app_assoc, <- Hg.
      split; [exact Hc|reflexivity].
    + rewrite !replicate_S_end, app_assoc, <- Hc, <- Hg.
      split; reflexivity.
  - exists p.
    destruct op as [| |q s| |];
      try (split; [exact Hp|]; split; [destruct p; exact Hph|];
           exists j; destruct shared; exact Hq).
    destruct q, shared; cbn in Hq |- *;
      (split; [exact Hp|]); (split; [destruct p; exact Hph|]);
      exists j; cbn; destruct Hq as [Hc Hg]; rewrite <- ?List.app_assoc; cbn; auto.
Qed.

Lemma drainInvariant_start (shared : bool) (q : Queue) (m m' : Machine) :
  DrainInvariant shared m -> step shared m (Begin q) = Some m' ->
  DrainInvariant shared m'.
Proof.
  intros (p & Hp & Hph & (j & Hq)) Hstep.
  destruct m as [[sg sc sp sr] pg pc rn tr hl hr].
  cbn in Hp, Hph, Hq, Hstep.
  destruct q; [destruct pg as [|s rest]|destruct pc as [|s rest]];
    try discriminate Hstep;
    unfold startBatch in Hstep; cbn in Hstep;
    destruct (forallb _ _) eqn:Hwait; try discriminate Hstep; inv_some;
    unfold DrainInvariant; cbn [trace];
    rewrite (phaseAfter_snoc _ _ _ Hp);
    destruct shared; cbn in Hq; destruct Hq as [Hc Hg];
    try discriminate Hc;
    destruct p; cbn in Hph; destruct Hph as (Hsg & Hsc & Hrn); subst sg sc rn;
    cbn [owedGraphics app] in Hg.
  all: try (apply frames_cons in Hg; destruct Hg as (j' & -> & -> & Hg)).
  all: try (injection Hg as -> Hg).
  all: try (apply replicate_cons_inv in Hg;
            destruct Hg as (j' & -> & -> & Hg)).
  all: try (apply replicate_cons_inv in Hc;
            destruct Hc as (j' & -> & -> & Hc)).
  all: cbn in Hwait; try discriminate Hwait.
  all: cbn.
  - exists Writing. split; [reflexivity|]. split; [cbn; auto|].
    exists j'. cbn. auto.
  - exists Reading. split; [reflexivity|]. split; [cbn; auto|].
    exists j. cbn. auto.
  - exists Reading. split; [reflexivity|]. split; [cbn; auto|].
    exists j. cbn. auto.
  - exists Writing. split; [reflexivity|]. split; [cbn; auto|].
    exists j'. cbn. split; [auto|]. rewrite Hg. reflexivity.
Qed.

Lemma queuesInvariant_same (shared : bool) (p p' : Phase) (m m' : Machine) :
  owedGraphics p' = owedGraphics p ->
  pendingGraphic m' = pendingGraphic m ->
  pendingCompute m' = pendingCompute m ->
  hostRest m' = hostRest m ->
  QueuesInvariant shared p m -> QueuesInvariant shared p' m'.
Proof.
  unfold QueuesInvariant. intros -> -> -> -> Hq. exact Hq.
Qed.

Lemma drainInvariant_finish (shared : bool) (k : nat) (m m' : Machine) :
  DrainInvariant shared m -> step shared m (Finish k) = Some m' ->
  DrainInvariant shared m'.
Proof.
  intros (p & Hp & Hph & Hq) Hstep. cbn in Hstep.
  destruct (running m !! k) as [s|] eqn:Hk; [|discriminate]. inv_some.
  unfold DrainInvariant. cbn [trace]. rewrite (phaseAfter_snoc _ _ _ Hp).
  destruct m as [[sg sc sp sr] pg pc rn tr hl hr]. cbn in Hph, Hk.
  destruct p; cbn in Hph; destruct Hph as (Hsg & Hsc & Hrn); subst;
    destruct k; cbn in Hk; try discriminate Hk; inv_some.
  - exists ReaderNext. split; [reflexivity|]. split; [cbn; auto|].
    revert Hq. apply queuesInvariant_same; reflexivity.
  - exists WriterNext. split; [reflexivity|]. split; [cbn; auto|].
    revert Hq. apply queuesInvariant_same; reflexivity.
Qed.

Lemma drainInvariant_step (shared : bool) (m m' : Machine) (a : Action) :
  DrainInvariant shared m -> step shared m a = Some m' -> DrainInvariant shared m'.
Proof.
  intros Hinv Hstep. destruct a as [|q|k| |].
  - eapply drainInvariant_host; eauto.
  - eapply drainInvariant_start; eauto.
  - eapply drainInvariant_finish; eauto.
  - cbn in Hstep. inv_some. destruct Hinv as (p & Hp & Hph & Hq).
    exists p. split; [exact Hp|]. split; [destruct p; exact Hph|].
    revert Hq. apply queuesInvariant_same; reflexivity.
  - cbn in Hstep. destruct (sRenderComplete (sems m)); [|discriminate]. inv_some.
    destruct Hinv as (p & Hp & Hph & Hq).
    exists p. split; [exact Hp|]. split; [destruct p; exact Hph|].
    revert Hq. apply queuesInvariant_same; reflexivity.
Qed.

Lemma drainInvariant_run (shared : bool) (acts : list Action) (m m' : Machine) :
  DrainInvariant shared m -> run shared acts m = Some m' -> DrainInvariant shared m'.
Proof.
  intros Hinv. apply (run_invariant (DrainInvariant shared) shared); [|exact Hinv].
  apply drainInvariant_step.
Qed.

Lemma host_flush (shared : bool) (n : nat) (m : Machine) :
  List.length (hostRest m) = n ->
  exists m',
    run shared (replicate n Host) m = Some m' /\
    hostRest m' = [] /\ trace m' = trace m.
Proof.
  revert m. induction n as [|n IH]; intros m Hlen.
  - exists m. cbn. destruct (hostRest m); [auto|discriminate].
  - destruct (hostRest m) as [|op rest] eqn:Hrest; [discriminate|].
    cbn [replicate run step]. rewrite Hrest.
    destruct (IH (hostOp shared op (logHostOp op (withHostRest rest m))))
      as (m' & Hrun & Hnil & Htr).
    { cbn in Hlen. destruct op; cbn; try lia. destruct q, shared; cbn; lia. }
    exists m'. split; [exact Hrun|]. split; [exact Hnil|].
    rewrite Htr. destruct op; cbn; try reflexivity.
    destruct q, shared; reflexivity.
Qed.

Lemma drained_is_quiescent (shared : bool) (m : Machine) :
  DrainInvariant shared m -> hostRest m = [] -> workLeft m = 0%nat ->
  Quiescent m /\ phaseAfter WriterNext (bufferWindows (trace m)) = Some WriterNext.
Proof.
  intros (p & Hp & Hph & (j & Hq)) Hhost Hwork.
  destruct m as [sm pg pc rn tr hl hr]. unfold workLeft in Hwork.
  cbn in Hp, Hph, Hq, Hhost, Hwork. subst hr.
  assert (pg = [] /\ pc = [] /\ rn = []) as (-> & -> & ->).
  { destruct pg, pc, rn; cbn in Hwork; try lia. auto. }
  split; [repeat split|].
  destruct p; cbn in Hph; destruct Hph as (_ & _ & Hrn); try discriminate Hrn;
    [exact Hp|].
  destruct shared; cbn in Hq; destruct Hq as [_ Hg]; discriminate Hg.
Qed.

Lemma queues_make_progress (shared : bool) (m : Machine) :
  DrainInvariant shared m -> hostRest m = [] -> (0 < workLeft m)%nat ->
  exists acts m',
    run shared acts m = Some m' /\
    hostRest m' = [] /\ (workLeft m' < workLeft m)%nat.
Proof.
  intros (p & Hp & Hph & (j & Hq)) Hhost Hwork.
  destruct m as [[sg sc sp sr] pg pc rn tr hl hr]. unfold workLeft in *.
  cbn in Hp, Hph, Hq, Hhost, Hwork. subst hr.
  destruct p; cbn in Hph; destruct Hph as (Hsg & Hsc & Hrn); subst sg sc rn.
  - (* the next compute batch can start *)
    destruct shared; cbn in Hq; destruct Hq as [Hc Hg]; rewrite app_nil_r in *.
    + subst pc. destruct j as [|j]; cbn in Hg; subst pg; [cbn in Hwork; lia|].
      clear Hwork.
      generalize (concat (replicate j [computeSubmitInfo; graphicsSubmitInfo])).
      intros l.
      exists [Begin GraphicQueue]. eexists. split; [reflexivity|].
      split; [reflexivity|]. cbn. lia.
    + subst pc pg. destruct j as [|j]; [cbn in Hwork; lia|].
      clear Hwork. cbn [replicate].
      generalize (replicate j computeSubmitInfo) (replicate j graphicsSubmitInfo).
      intros lc lg.
      exists [Begin ComputeQueue]. eexists. split; [reflexivity|].
      split; [reflexivity|]. cbn. lia.
  - (* the running compute batch can complete *)
    exists [Finish 0%nat]. eexists. split; [reflexivity|].
    split; [reflexivity|]. cbn. lia.
  - (* once an image is available the graphics batch can start *)
    clear Hwork.
    destruct shared; cbn in Hq; destruct Hq as [Hc Hg]; rewrite app_nil_r in *;
      subst pg;
      [generalize (concat (replicate j [computeSubmitInfo; graphicsSubmitInfo]))
      |generalize (replicate j graphicsSubmitInfo)];
      intros l; exists [ImageAvailable; Begin GraphicQueue]; eexists;
      (split; [reflexivity|]); (split; [reflexivity|]); cbn; lia.
  - (* the running graphics batch can complete *)
    exists [Finish 0%nat]. eexists. split; [reflexivity|].
    split; [reflexivity|]. cbn. lia.
Qed.

Lemma queues_drain (shared : bool) (n : nat) (m : Machine) :
  (workLeft m <= n)%nat ->
  DrainInvariant shared m -> hostRest m = [] ->
  exists acts m',
    run shared acts m = Some m' /\ Quiescent m' /\
    phaseAfter WriterNext (bufferWindows (trace m')) = Some WriterNext.
Proof.
  revert m. induction n as [|n IH]; intros m Hle Hinv Hhost.
  - exists [], m. split; [reflexivity|].
    apply (drained_is_quiescent shared); [exact Hinv|exact Hhost|lia].
  - destruct (Nat.eq_dec (workLeft m) 0%nat) as [Hzero|Hpos].
    + exists [], m. split; [reflexivity|].
      apply (drained_is_quiescent shared); assumption.
    + destruct (queues_make_progress shared m Hinv Hhost ltac:(lia))
        as (acts1 & m1 & Hrun1 & Hhost1 & Hless).
      destruct (IH m1 ltac:(lia) (drainInvariant_run shared acts1 m m1 Hinv Hrun1) Hhost1)
        as (acts2 & m2 & Hrun2 & Hq & Hp).
      exists (acts1 ++ acts2), m2. split; [|auto].
      now rewrite run_app, Hrun1.
Qed.

(** X12. The protocol cannot deadlock: from every state an execution can
    reach, with separate queues or a shared one, the execution can be
    continued until every batch the host has submitted or is about to
    submit in the current [render] has run to completion, with all write
    and read windows closed in whole cycles. *)
Theorem no_deadlock (shared : bool) (acts : list Action) (m : Machine) :
  run shared acts preparedMachine = Some m ->
  exists more m',
    run shared more m = Some m' /\
    Quiescent m' /\
    phaseAfter WriterNext (bufferWindows (trace m')) = Some WriterNext.
Proof.
  intros Hrun.
  pose proof (drainInvariant_run shared acts preparedMachine m
                (drainInvariant_prepared shared) Hrun) as Hinv.
  destruct (host_flush shared (List.length (hostRest m)) m eq_refl)
    as (m1 & Hrun1 & Hhost1 & _).
  destruct (queues_drain shared (workLeft m1) m1 (le_n _)
              (drainInvariant_run shared _ m m1 Hinv Hrun1) Hhost1)
    as (acts2 & m2 & Hrun2 & Hq & Hp).
  exists (replicate (List.length (hostRest m)) Host ++ acts2), m2.
  split; [|auto]. now rewrite run_app, Hrun1.
Qed.

Lemma no_deadlock_witness :
  exists m more m',
    run false oneFrameSchedule preparedMachine = Some m /\
    running m = [computeSubmitInfo] /\
    run false more m = Some m' /\
    Quiescent m' /\
    phaseAfter WriterNext (bufferWindows (trace m')) = Some WriterNext.
Proof.
  eexists.
  destruct (no_deadlock false oneFrameSchedule _ ltac:(vm_compute; reflexivity))
    as (more & m' & Hmore).
  exists more, m'. split; [vm_compute; reflexivity|]. split; [reflexivity|exact Hmore].
Defined.
